(** * RFM customer segmentation: the pipeline of [main.py]

    The script cleans a retail transaction export with pandas, loads it
    into four PostgreSQL tables and computes the RFM segmentation with one
    SQL statement.  This development embeds the three stages as functions
    on lists of rows and proves the properties of the design document.

    Conventions of the embedding:
    - a data frame and a table are the list of their rows, in row order
      (insertion order for a table);
    - [TEXT] columns are [string], [INT] columns are [Z]; of the columns
      of the file only [CustomerID] and [Description] can be missing;
    - timestamps are whole seconds and [CURRENT_DATE] is a day number, both
      [Z]; [pd.to_datetime] is taken as already applied to the input;
    - [FLOAT] columns and pandas' float64 columns are binary64 values,
      [spec_float] of the Standard Library at precision 53 and maximal
      exponent 1024: products and sums round to nearest even, and a sum
      depends on the order of its terms; the unit prices of the file are
      not the negative zero, which [drop_duplicates] would take for the
      same value as zero;
    - a statement reads a join by nested loops, the outer table first, and
      an aggregate takes the rows of a group in that order;
    - a failing [cur.execute] (psycopg2 raising on a foreign key, or on a
      double precision result out of range) is the [ForeignKeyViolation] or
      the [NumericValueOutOfRange] outcome and aborts the run. *)

From Stdlib Require Import ZArith List String Bool Lia Permutation.
From Stdlib Require Import Sorting.Sorted DecimalString Floats.SpecFloat.
Import ListNotations.
Local Open Scope Z_scope.

(** ** Keys *)

(** Column types that are compared for equality: by [drop_duplicates], by
    primary keys, by join conditions, by [GROUP BY] and [COUNT(DISTINCT)]. *)
Class Key (K : Type) := {
  keqb : K -> K -> bool;
  keqb_eq : forall a b, keqb a b = true <-> a = b
}.

#[export] Instance Key_Z : Key Z :=
  {| keqb := Z.eqb; keqb_eq := Z.eqb_eq |}.

#[export] Instance Key_string : Key string :=
  {| keqb := String.eqb; keqb_eq := String.eqb_eq |}.

#[export, refine] Instance Key_prod {A B} `{Key A} `{Key B} : Key (A * B) :=
  {| keqb := fun x y => keqb (fst x) (fst y) && keqb (snd x) (snd y) |}.
Proof.
  intros [a b] [a' b']; simpl.
  rewrite andb_true_iff, !keqb_eq.
  split; [intros [-> ->]; reflexivity | intros E; inversion E; auto].
Defined.

Infix "=?=" := keqb (at level 70, no associativity).

(** ** Double precision *)

(** A value of a [FLOAT] column or of a float64 column of the frame. *)
Definition float8 : Type := spec_float.

(** The conversion of an integer, as [INT * FLOAT] and int64 * float64
    apply it to the integer operand. *)
Definition float8_of_Z (z : Z) : float8 := binary_normalize 53 1024 z 0 false.

(** The product and the sum of two doubles. *)
Definition float8mul (a b : float8) : float8 := SFmul 53 1024 a b.

Definition float8pl (a b : float8) : float8 := SFadd 53 1024 a b.

Definition isinf (x : float8) : bool :=
  match x with S754_infinity _ => true | _ => false end.

Definition iszero (x : float8) : bool :=
  match x with S754_zero _ => true | _ => false end.

(** PostgreSQL raises "value out of range" when a product or a sum of
    finite operands is infinite, and when a product of operands other than
    zero is zero. *)
Definition float8mul_raises (a b : float8) : bool :=
  let r := float8mul a b in
  (isinf r && negb (isinf a) && negb (isinf b))
  || (iszero r && negb (iszero a) && negb (iszero b)).

Definition float8pl_raises (a b : float8) : bool :=
  isinf (float8pl a b) && negb (isinf a) && negb (isinf b).

(** The order of [ORDER BY] on doubles: the order of the numbers, with NaN
    after all of them and equal to itself. *)
Definition float8_le (a b : float8) : bool :=
  match SFcompare a b with
  | Some Gt => false
  | Some _ => true
  | None => match b with S754_nan => true | _ => false end
  end.

Definition float8_lt (a b : float8) : bool := negb (float8_le b a).

(** Being the same binary64 value. *)
Definition float8_same (a b : float8) : bool :=
  match a, b with
  | S754_zero s, S754_zero t => Bool.eqb s t
  | S754_infinity s, S754_infinity t => Bool.eqb s t
  | S754_nan, S754_nan => true
  | S754_finite s m e, S754_finite t n f =>
      Bool.eqb s t && Pos.eqb m n && Z.eqb e f
  | _, _ => false
  end.

#[export, refine] Instance Key_float8 : Key float8 :=
  {| keqb := float8_same |}.
Proof.
  intros [s|s| |s m e] [t|t| |t n f]; simpl;
    rewrite ?andb_true_iff, ?Bool.eqb_true_iff, ?Pos.eqb_eq, ?Z.eqb_eq;
    split; intros E; try discriminate; try congruence; try reflexivity.
  - destruct E as [[-> ->] ->]. reflexivity.
  - inversion E. auto.
Defined.

(** ** Step 1: the CSV rows and the cleaned frame *)

Module Csv.
(** A record of [online_retail.csv] as [pd.read_csv] delivers it: the
    customer identifier and the description may be missing (NaN). *)
Record row := {
  InvoiceNo : string;
  StockCode : string;
  Description : option string;
  Quantity : Z;
  InvoiceDate : Z;
  UnitPrice : float8;
  CustomerID : option Z;
  Country : string
}.
End Csv.

Module Df.
(** A row of [df] after lines 9-11: both nullable columns are present and
    the column [TotalPrice] has been added. *)
Record row := {
  InvoiceNo : string;
  StockCode : string;
  Description : string;
  Quantity : Z;
  InvoiceDate : Z;
  UnitPrice : float8;
  CustomerID : Z;
  Country : string;
  TotalPrice : float8
}.
End Df.

(** What lines 9-11 do to one record: drop it when [CustomerID] or
    [Description] is missing, else keep it with [TotalPrice] computed. *)
Definition clean (r : Csv.row) : option Df.row :=
  match Csv.CustomerID r, Csv.Description r with
  | Some c, Some d =>
      Some {| Df.InvoiceNo := Csv.InvoiceNo r;
              Df.StockCode := Csv.StockCode r;
              Df.Description := d;
              Df.Quantity := Csv.Quantity r;
              Df.InvoiceDate := Csv.InvoiceDate r;
              Df.UnitPrice := Csv.UnitPrice r;
              Df.CustomerID := c;
              Df.Country := Csv.Country r;
              Df.TotalPrice :=
                float8mul (float8_of_Z (Csv.Quantity r)) (Csv.UnitPrice r) |}
  | _, _ => None
  end.

(** [df.dropna(subset=['CustomerID', 'Description'], inplace=True)] followed
    by the two column assignments. *)
Fixpoint dropna (df : list Csv.row) : list Df.row :=
  match df with
  | [] => []
  | r :: rest =>
      match clean r with
      | Some r' => r' :: dropna rest
      | None => dropna rest
      end
  end.

(** [DataFrame.drop_duplicates()]: the first occurrence of every row is
    kept, in row order. *)
Fixpoint drop_duplicates_from {A} `{Key A} (seen l : list A) : list A :=
  match l with
  | [] => []
  | x :: xs =>
      if existsb (keqb x) seen then drop_duplicates_from seen xs
      else x :: drop_duplicates_from (x :: seen) xs
  end.

Definition drop_duplicates {A} `{Key A} (l : list A) : list A :=
  drop_duplicates_from [] l.

(** The four frames of steps 4 to 7. *)
Definition customers_frame (df : list Df.row) : list (Z * string) :=
  drop_duplicates (map (fun r => (Df.CustomerID r, Df.Country r)) df).

Definition products_frame (df : list Df.row)
  : list (string * (string * float8)) :=
  drop_duplicates
    (map (fun r => (Df.StockCode r, (Df.Description r, Df.UnitPrice r))) df).

Definition invoices_frame (df : list Df.row) : list (string * (Z * Z)) :=
  drop_duplicates
    (map (fun r => (Df.InvoiceNo r, (Df.InvoiceDate r, Df.CustomerID r))) df).

Definition invoice_items_frame (df : list Df.row) : list (string * (string * Z)) :=
  map (fun r => (Df.InvoiceNo r, (Df.StockCode r, Df.Quantity r))) df.

(** ** Steps 2 and 3: the schema *)

Module Customer.
Record row := { customer_id : Z; country : string }.
End Customer.

Module Product.
Record row := {
  stock_code : string;
  description : string;
  unit_price : float8
}.
End Product.

Module Invoice.
Record row := { invoice_no : string; invoice_date : Z; customer_id : Z }.
End Invoice.

Module InvoiceItem.
Record row := { invoice_no : string; stock_code : string; quantity : Z }.
End InvoiceItem.

Record database := {
  customers : list Customer.row;
  products : list Product.row;
  invoices : list Invoice.row;
  invoice_items : list InvoiceItem.row
}.

(** The state after [DROP TABLE IF EXISTS ...; CREATE TABLE ...]. *)
Definition created : database :=
  {| customers := []; products := []; invoices := []; invoice_items := [] |}.

(** The result of one [cur.execute]: the new state, or the exception that
    PostgreSQL raises when a [REFERENCES] constraint does not hold, or when
    a double precision operation goes out of range. *)
Inductive outcome (A : Type) : Type :=
| Done (a : A)
| ForeignKeyViolation
| NumericValueOutOfRange.
Arguments Done {A} a.
Arguments ForeignKeyViolation {A}.
Arguments NumericValueOutOfRange {A}.

Definition bind {A B} (m : outcome A) (f : A -> outcome B) : outcome B :=
  match m with
  | Done a => f a
  | ForeignKeyViolation => ForeignKeyViolation
  | NumericValueOutOfRange => NumericValueOutOfRange
  end.

Notation "x <- m ;; k" := (bind m (fun x => k))
  (at level 61, m at next level, right associativity).

(** A [for] loop whose body may raise. *)
Fixpoint for_each {A S} (body : A -> S -> outcome S) (l : list A) (s : S)
  : outcome S :=
  match l with
  | [] => Done s
  | x :: xs => s' <- body x s ;; for_each body xs s'
  end.

(** Whether a table holds a row with the given key. *)
Definition has_key {K A} `{Key K} (key : A -> K) (k : K) (t : list A) : bool :=
  existsb (fun y => key y =?= k) t.

(** [INSERT ... ON CONFLICT (key) DO NOTHING] on one table. *)
Definition insert_do_nothing {K A} `{Key K} (key : A -> K) (x : A) (t : list A)
  : list A :=
  if has_key key (key x) t then t else t ++ [x].

(** The rows that the [VALUES (%s, ...)] of the four statements build from
    a frame row. *)
Definition customer_values (row : Z * string) : Customer.row :=
  {| Customer.customer_id := fst row; Customer.country := snd row |}.

Definition product_values (row : string * (string * float8)) : Product.row :=
  {| Product.stock_code := fst row;
     Product.description := fst (snd row);
     Product.unit_price := snd (snd row) |}.

Definition invoice_values (row : string * (Z * Z)) : Invoice.row :=
  {| Invoice.invoice_no := fst row;
     Invoice.invoice_date := fst (snd row);
     Invoice.customer_id := snd (snd row) |}.

Definition invoice_item_values (row : string * (string * Z)) : InvoiceItem.row :=
  {| InvoiceItem.invoice_no := fst row;
     InvoiceItem.stock_code := fst (snd row);
     InvoiceItem.quantity := snd (snd row) |}.

(** Step 4, the statement of lines 65-69. *)
Definition insert_customer (row : Z * string) (db : database) : outcome database :=
  Done {| customers :=
            insert_do_nothing Customer.customer_id (customer_values row)
              (customers db);
          products := products db;
          invoices := invoices db;
          invoice_items := invoice_items db |}.

(** Step 5, the statement of lines 74-78. *)
Definition insert_product (row : string * (string * float8)) (db : database)
  : outcome database :=
  Done {| customers := customers db;
          products :=
            insert_do_nothing Product.stock_code (product_values row)
              (products db);
          invoices := invoices db;
          invoice_items := invoice_items db |}.

(** Step 6, the statement of lines 83-87.  A conflicting key skips the
    insertion, and with it the check of the reference to [customers]. *)
Definition insert_invoice (row : string * (Z * Z)) (db : database)
  : outcome database :=
  let i := invoice_values row in
  if has_key Invoice.invoice_no (Invoice.invoice_no i) (invoices db) then Done db
  else if has_key Customer.customer_id (Invoice.customer_id i) (customers db) then
    Done {| customers := customers db;
            products := products db;
            invoices := invoices db ++ [i];
            invoice_items := invoice_items db |}
  else ForeignKeyViolation.

(** Step 7, the statement of lines 92-95: a plain insert, both references
    are checked. *)
Definition insert_invoice_item (row : string * (string * Z)) (db : database)
  : outcome database :=
  let ii := invoice_item_values row in
  if has_key Invoice.invoice_no (InvoiceItem.invoice_no ii) (invoices db)
     && has_key Product.stock_code (InvoiceItem.stock_code ii) (products db)
  then
    Done {| customers := customers db;
            products := products db;
            invoices := invoices db;
            invoice_items := invoice_items db ++ [ii] |}
  else ForeignKeyViolation.

(** Steps 4 to 7 on the cleaned frame, from the fresh schema. *)
Definition load_into (df : list Df.row) (db : database) : outcome database :=
  db <- for_each insert_customer (customers_frame df) db ;;
  db <- for_each insert_product (products_frame df) db ;;
  db <- for_each insert_invoice (invoices_frame df) db ;;
  for_each insert_invoice_item (invoice_items_frame df) db.

(** Steps 1 to 7. *)
Definition load (csv : list Csv.row) : outcome database :=
  load_into (dropna csv) created.

(** ** Step 8: the RFM statement *)

(** *** The CTE [rfm]: join and aggregation *)

Module Joined.
(** A row of [customers c JOIN invoices i JOIN invoice_items ii JOIN products p]. *)
Record row := {
  c : Customer.row;
  i : Invoice.row;
  ii : InvoiceItem.row;
  p : Product.row
}.
End Joined.

(** The [FROM] clause: three inner joins, each on its [ON] condition. *)
Definition from_clause (db : database) : list Joined.row :=
  flat_map (fun c =>
    flat_map (fun i =>
      flat_map (fun ii =>
        map (fun p => {| Joined.c := c; Joined.i := i; Joined.ii := ii; Joined.p := p |})
          (filter (fun p => InvoiceItem.stock_code ii =?= Product.stock_code p)
             (products db)))
        (filter (fun ii => Invoice.invoice_no i =?= InvoiceItem.invoice_no ii)
           (invoice_items db)))
      (filter (fun i => Customer.customer_id c =?= Invoice.customer_id i)
         (invoices db)))
    (customers db).

(** The group key of a joined row, [c.customer_id]. *)
Definition group_key (j : Joined.row) : Z := Customer.customer_id (Joined.c j).

(** The rows of the group with key [k]. *)
Definition group (k : Z) (rows : list Joined.row) : list Joined.row :=
  filter (fun j => group_key j =?= k) rows.

(** [ii.quantity * p.unit_price] on a joined row: the quantity is
    converted and the product is a double. *)
Definition amount (j : Joined.row) : float8 :=
  float8mul (float8_of_Z (InvoiceItem.quantity (Joined.ii j)))
            (Product.unit_price (Joined.p j)).

Definition amount_raises (j : Joined.row) : bool :=
  float8mul_raises (float8_of_Z (InvoiceItem.quantity (Joined.ii j)))
                   (Product.unit_price (Joined.p j)).

(** [SUM] and [MAX] over the rows of a group, which is never empty.  [SUM]
    of doubles starts from the first value and adds the others one by one,
    in the order in which the rows come. *)
Definition SUM (l : list float8) : float8 :=
  match l with
  | [] => S754_zero false
  | x :: xs => fold_left float8pl xs x
  end.

Fixpoint accumulate_raises (acc : float8) (l : list float8) : bool :=
  match l with
  | [] => false
  | x :: xs => float8pl_raises acc x || accumulate_raises (float8pl acc x) xs
  end.

Definition SUM_raises (l : list float8) : bool :=
  match l with
  | [] => false
  | x :: xs => accumulate_raises x xs
  end.

Definition MAX (l : list Z) : Z :=
  match l with
  | [] => 0
  | x :: xs => fold_left Z.max xs x
  end.

(** [COUNT(DISTINCT ...)]. *)
Definition COUNT_DISTINCT {A} `{Key A} (l : list A) : Z :=
  Z.of_nat (List.length (drop_duplicates l)).

(** [DATE_PART('day', CURRENT_DATE - t)]: the day field of the interval
    from [t] to midnight of the current date. *)
Definition days_since (current_date t : Z) : Z :=
  Z.quot (current_date * 86400 - t) 86400.

Module Rfm.
Record row := {
  customer_id : Z;
  recency : Z;
  frequency : Z;
  monetary : float8
}.
End Rfm.

(** One output row of [GROUP BY c.customer_id]. *)
Definition aggregate (current_date : Z) (k : Z) (g : list Joined.row) : Rfm.row :=
  {| Rfm.customer_id := k;
     Rfm.recency :=
       days_since current_date
         (MAX (map (fun j => Invoice.invoice_date (Joined.i j)) g));
     Rfm.frequency :=
       COUNT_DISTINCT (map (fun j => Invoice.invoice_no (Joined.i j)) g);
     Rfm.monetary := SUM (map amount g) |}.

Definition rfm (current_date : Z) (db : database) : list Rfm.row :=
  let rows := from_clause db in
  map (fun k => aggregate current_date k (group k rows))
      (drop_duplicates (map group_key rows)).

(** *** The CTE [rfm_ntile]: three window functions *)

(** PostgreSQL evaluates [NTILE(n)] row by row over the sorted partition:
    it keeps the current bucket, the rows already put into it, the number
    of rows a bucket takes, and how many leading buckets take one more. *)
Record ntile_context := {
  ntile : Z;
  rows_per_bucket : Z;
  boundary : Z;
  remainder : Z
}.

(** The state on the first row of a partition of [total] rows. *)
Definition ntile_first (nbuckets total : Z) : ntile_context :=
  let b := total / nbuckets in
  if b <=? 0 then
    {| ntile := 1; rows_per_bucket := 0; boundary := 1; remainder := 0 |}
  else
    let r := total mod nbuckets in
    {| ntile := 1; rows_per_bucket := 0;
       boundary := if r =? 0 then b else b + 1;
       remainder := r |}.

(** The work done for one row; the bucket of the row is [ntile] of the
    state that results. *)
Definition ntile_next (s : ntile_context) : ntile_context :=
  let rows := rows_per_bucket s + 1 in
  if boundary s <? rows then
    if negb (remainder s =? 0) && (ntile s =? remainder s) then
      {| ntile := ntile s + 1; rows_per_bucket := 1;
         boundary := boundary s - 1; remainder := 0 |}
    else
      {| ntile := ntile s + 1; rows_per_bucket := 1;
         boundary := boundary s; remainder := remainder s |}
  else
    {| ntile := ntile s; rows_per_bucket := rows;
       boundary := boundary s; remainder := remainder s |}.

(** The buckets of the next [n] rows, in sort order. *)
Fixpoint ntile_rows (s : ntile_context) (n : nat) : list Z :=
  match n with
  | O => []
  | S n' => let s' := ntile_next s in ntile s' :: ntile_rows s' n'
  end.

(** The state after [n] more rows. *)
Fixpoint ntile_after (s : ntile_context) (n : nat) : ntile_context :=
  match n with
  | O => s
  | S n' => ntile_after (ntile_next s) n'
  end.

(** The buckets of a partition of [total] rows, in sort order. *)
Definition ntile_buckets (nbuckets : Z) (total : nat) : list Z :=
  ntile_rows (ntile_first nbuckets (Z.of_nat total)) total.

(** [ORDER BY]: a stable insertion sort; [le a b] says that [a] may come
    before [b]. *)
Fixpoint insert_sorted {A} (le : A -> A -> bool) (x : A) (l : list A) : list A :=
  match l with
  | [] => [x]
  | y :: ys => if le x y then x :: l else y :: insert_sorted le x ys
  end.

Fixpoint order_by {A} (le : A -> A -> bool) (l : list A) : list A :=
  match l with
  | [] => []
  | x :: xs => insert_sorted le x (order_by le xs)
  end.

(** The rows of a CTE with their position. *)
Definition numbered {A} (l : list A) : list (nat * A) :=
  combine (seq 0 (List.length l)) l.

(** The value an association list gives to a position. *)
Fixpoint assoc (k : nat) (l : list (nat * Z)) : Z :=
  match l with
  | [] => 0
  | (k', v) :: rest => if Nat.eqb k k' then v else assoc k rest
  end.

(** [NTILE(nbuckets) OVER (ORDER BY ...)] over the whole input: the row
    positions in sort order, each with its bucket. *)
Definition ntile_over {A} (nbuckets : Z) (le : A -> A -> bool) (rows : list A)
  : list (nat * Z) :=
  combine
    (map fst (order_by (fun a b => le (snd a) (snd b)) (numbered rows)))
    (ntile_buckets nbuckets (List.length rows)).

Definition recency_asc (a b : Rfm.row) : bool :=
  Rfm.recency a <=? Rfm.recency b.

Definition frequency_desc (a b : Rfm.row) : bool :=
  Rfm.frequency b <=? Rfm.frequency a.

Definition monetary_desc (a b : Rfm.row) : bool :=
  float8_le (Rfm.monetary b) (Rfm.monetary a).

Module RfmNtile.
Record row := {
  customer_id : Z;
  recency : Z;
  frequency : Z;
  monetary : float8;
  r_ntile : Z;
  f_ntile : Z;
  m_ntile : Z
}.
End RfmNtile.

(** The output row for the input row [snd nx] at position [fst nx]. *)
Definition rfm_ntile_row (rows : list Rfm.row) (nx : nat * Rfm.row)
  : RfmNtile.row :=
  {| RfmNtile.customer_id := Rfm.customer_id (snd nx);
     RfmNtile.recency := Rfm.recency (snd nx);
     RfmNtile.frequency := Rfm.frequency (snd nx);
     RfmNtile.monetary := Rfm.monetary (snd nx);
     RfmNtile.r_ntile := assoc (fst nx) (ntile_over 5 recency_asc rows);
     RfmNtile.f_ntile := assoc (fst nx) (ntile_over 5 frequency_desc rows);
     RfmNtile.m_ntile := assoc (fst nx) (ntile_over 5 monetary_desc rows) |}.

Definition rfm_ntile (rows : list Rfm.row) : list RfmNtile.row :=
  map (rfm_ntile_row rows) (numbered rows).

(** *** The CTE [rfm_scores] *)

Module RfmScores.
Record row := {
  customer_id : Z;
  recency : Z;
  frequency : Z;
  monetary : float8;
  r_score : Z;
  f_score : Z;
  m_score : Z
}.
End RfmScores.

Definition rfm_scores (rows : list RfmNtile.row) : list RfmScores.row :=
  map (fun x =>
         {| RfmScores.customer_id := RfmNtile.customer_id x;
            RfmScores.recency := RfmNtile.recency x;
            RfmScores.frequency := RfmNtile.frequency x;
            RfmScores.monetary := RfmNtile.monetary x;
            RfmScores.r_score := 6 - RfmNtile.r_ntile x;
            RfmScores.f_score := 6 - RfmNtile.f_ntile x;
            RfmScores.m_score := 6 - RfmNtile.m_ntile x |})
      rows.

(** *** The final [SELECT] *)

Inductive Segment : Type :=
| Champions
| Loyal_Customers
| Big_Spenders
| Lost
| Others.

(** The text stored in the column [segment]. *)
Definition segment_name (s : Segment) : string :=
  match s with
  | Champions => "Champions"
  | Loyal_Customers => "Loyal Customers"
  | Big_Spenders => "Big Spenders"
  | Lost => "Lost"
  | Others => "Others"
  end.

(** The [CASE] expression of lines 150-156. *)
Definition segment_case (r_score f_score m_score : Z) : Segment :=
  if (r_score =? 5) && (f_score =? 5) && (m_score =? 5) then Champions
  else if (r_score >=? 4) && (f_score >=? 4) then Loyal_Customers
  else if m_score =? 5 then Big_Spenders
  else if r_score =? 1 then Lost
  else Others.

Module RfmSegmentation.
Record row := {
  customer_id : Z;
  recency : Z;
  frequency : Z;
  monetary : float8;
  r_score : Z;
  f_score : Z;
  m_score : Z;
  rfm_score : string;
  segment : Segment
}.
End RfmSegmentation.

(** The decimal text of an integer, as [concat] renders its arguments. *)
Definition text (z : Z) : string := NilZero.string_of_int (Z.to_int z).

Definition select_segmentation (rows : list RfmScores.row)
  : list RfmSegmentation.row :=
  map (fun x =>
         {| RfmSegmentation.customer_id := RfmScores.customer_id x;
            RfmSegmentation.recency := RfmScores.recency x;
            RfmSegmentation.frequency := RfmScores.frequency x;
            RfmSegmentation.monetary := RfmScores.monetary x;
            RfmSegmentation.r_score := RfmScores.r_score x;
            RfmSegmentation.f_score := RfmScores.f_score x;
            RfmSegmentation.m_score := RfmScores.m_score x;
            RfmSegmentation.rfm_score :=
              (text (RfmScores.r_score x) ++ text (RfmScores.f_score x)
               ++ text (RfmScores.m_score x))%string;
            RfmSegmentation.segment :=
              segment_case (RfmScores.r_score x) (RfmScores.f_score x)
                (RfmScores.m_score x) |})
      rows.

(** [CREATE TABLE rfm_segmentation AS WITH ... SELECT ...]. *)
Definition rfm_segmentation (current_date : Z) (db : database)
  : list RfmSegmentation.row :=
  select_segmentation (rfm_scores (rfm_ntile (rfm current_date db))).

(** Whether the statement raises: a product of a joined row or a step of
    the sum of a group goes out of range. *)
Definition rfm_raises (db : database) : bool :=
  let rows := from_clause db in
  existsb amount_raises rows
  || existsb (fun k => SUM_raises (map amount (group k rows)))
             (drop_duplicates (map group_key rows)).

(** Step 8 as a statement: the table, unless the statement raises. *)
Definition create_rfm_segmentation (current_date : Z) (db : database)
  : outcome (list RfmSegmentation.row) :=
  if rfm_raises db then NumericValueOutOfRange
  else Done (rfm_segmentation current_date db).

(** The whole script: the table [rfm_segmentation] that it leaves behind,
    unless a statement of the load or the RFM statement fails. *)
Definition main (current_date : Z) (csv : list Csv.row)
  : outcome (list RfmSegmentation.row) :=
  db <- load csv ;;
  create_rfm_segmentation current_date db.

(** ** What the properties are stated with *)

(** A table after a sequence of [ON CONFLICT DO NOTHING] inserts. *)
Definition upsert_all {K A} `{Key K} (key : A -> K) (xs t : list A) : list A :=
  fold_left (fun t x => insert_do_nothing key x t) xs t.

(** Steps 4 to 6 for arbitrary frames, on an arbitrary store. *)
Definition load_entities (cs : list (Z * string))
    (ps : list (string * (string * float8))) (invs : list (string * (Z * Z)))
    (db : database) : outcome database :=
  db <- for_each insert_customer cs db ;;
  db <- for_each insert_product ps db ;;
  for_each insert_invoice invs db.

(** The four tables that the load of a cleaned frame leaves behind. *)
Definition loaded (df : list Df.row) : database :=
  {| customers :=
       upsert_all Customer.customer_id
         (map customer_values (customers_frame df)) [];
     products :=
       upsert_all Product.stock_code
         (map product_values (products_frame df)) [];
     invoices :=
       upsert_all Invoice.invoice_no
         (map invoice_values (invoices_frame df)) [];
     invoice_items := map invoice_item_values (invoice_items_frame df) |}.

(** Every reference of a store resolves. *)
Definition referential_integrity (db : database) : Prop :=
  (forall i, In i (invoices db) ->
     In (Invoice.customer_id i) (map Customer.customer_id (customers db)))
  /\ (forall ii, In ii (invoice_items db) ->
       In (InvoiceItem.invoice_no ii) (map Invoice.invoice_no (invoices db))
       /\ In (InvoiceItem.stock_code ii) (map Product.stock_code (products db))).

(** No two rows of a table share their primary key. *)
Definition primary_keys (db : database) : Prop :=
  NoDup (map Customer.customer_id (customers db))
  /\ NoDup (map Product.stock_code (products db))
  /\ NoDup (map Invoice.invoice_no (invoices db)).

(** The size NTILE semantics gives bucket [b] of [nbuckets] over [total]
    rows: the quotient, and one more for the first [total mod nbuckets]. *)
Definition bucket_size (nbuckets total b : nat) : nat :=
  (total / nbuckets + (if (b <=? total mod nbuckets)%nat then 1 else 0))%nat.

(** Buckets [1] to [nbuckets] laid out one after the other. *)
Definition bucket_layout (nbuckets total : nat) : list Z :=
  flat_map (fun b => repeat (Z.of_nat b) (bucket_size nbuckets total b))
           (seq 1 nbuckets).

(** How many rows of a CTE are in bucket [b] of the dimension [bucket]. *)
Definition rows_in_bucket {A} (bucket : A -> Z) (b : Z) (rows : list A) : nat :=
  count_occ Z.eq_dec (map bucket rows) b.

(** A column of bucket numbers splits the rows of [out] into quintiles:
    every row is in one of the buckets 1 to 5; bucket [b] holds the
    quotient of the row count by 5, and one more row when [b] is at most
    the remainder; so every size is the floor or the ceiling of a fifth,
    the sizes add up to the row count, and no bucket is larger than an
    earlier one. *)
Definition quintile_partition {A} (bucket : A -> Z) (out : list A) : Prop :=
  let N := List.length out in
  let size b := rows_in_bucket bucket (Z.of_nat b) out in
  (forall x, In x out -> 1 <= bucket x <= 5)
  /\ (forall b, (1 <= b <= 5)%nat ->
       size b = (N / 5 + (if (b <=? N mod 5)%nat then 1 else 0))%nat)
  /\ (forall b, (1 <= b <= 5)%nat ->
       size b = (N / 5)%nat \/ size b = ((N + 4) / 5)%nat)
  /\ (size 1 + size 2 + size 3 + size 4 + size 5 = N)%nat
  /\ (forall b b', (1 <= b)%nat -> (b <= b')%nat -> (b' <= 5)%nat ->
       (size b' <= size b)%nat).

(** The score computed from a bucket number is its mirror image in 1..5. *)
Definition inverted (bucket score : Z) : Prop :=
  score = 6 - bucket
  /\ score + bucket = 6
  /\ 1 <= bucket <= 5
  /\ 1 <= score <= 5
  /\ (bucket = 1 <-> score = 5)
  /\ (bucket = 5 <-> score = 1).

(** The rules of the [CASE] expression, as conditions on the scores. *)
Definition is_champion (r f m : Z) : Prop := r = 5 /\ f = 5 /\ m = 5.
Definition is_loyal (r f m : Z) : Prop := r >= 4 /\ f >= 4.
Definition is_big_spender (r f m : Z) : Prop := m = 5.
Definition is_lost (r f m : Z) : Prop := r = 1.

(** First match wins: a segment is assigned exactly when its rule holds
    and no rule before it does. *)
Definition first_match (r f m : Z) (s : Segment) : Prop :=
  (s = Champions <-> is_champion r f m)
  /\ (s = Loyal_Customers <-> ~ is_champion r f m /\ is_loyal r f m)
  /\ (s = Big_Spenders <->
       ~ is_champion r f m /\ ~ is_loyal r f m /\ is_big_spender r f m)
  /\ (s = Lost <->
       ~ is_champion r f m /\ ~ is_loyal r f m /\ ~ is_big_spender r f m
       /\ is_lost r f m)
  /\ (s = Others <->
       ~ is_champion r f m /\ ~ is_loyal r f m /\ ~ is_big_spender r f m
       /\ ~ is_lost r f m).

(** A record of the file that [dropna] removes. *)
Definition incomplete (r : Csv.row) : Prop :=
  Csv.CustomerID r = None \/ Csv.Description r = None.

(** A customer with an item row that the joins reach: through one of the
    customer's invoices, with the product of the item in [products]. *)
Definition reachable (db : database) (k : Z) : Prop :=
  exists c i ii p,
    In c (customers db) /\ In i (invoices db)
    /\ In ii (invoice_items db) /\ In p (products db)
    /\ Customer.customer_id c = k
    /\ Invoice.customer_id i = k
    /\ InvoiceItem.invoice_no ii = Invoice.invoice_no i
    /\ Product.stock_code p = InvoiceItem.stock_code ii.

(** The invoices stored for a customer. *)
Definition invoices_of (db : database) (k : Z) : list Invoice.row :=
  filter (fun i => Invoice.customer_id i =?= k) (invoices db).

(** The unit price that the load stores for a stock code: the one of the
    first row of the frame with that code. *)
Definition first_unit_price (df : list Df.row) (code : string) : float8 :=
  match find (fun r => Df.StockCode r =?= code) df with
  | Some r => Df.UnitPrice r
  | None => S754_zero false
  end.

(** The customer that the load stores for an invoice number: the one of
    the first row of the frame with that number. *)
Definition first_customer (df : list Df.row) (no : string) : Z :=
  match find (fun r => Df.InvoiceNo r =?= no) df with
  | Some r => Df.CustomerID r
  | None => 0
  end.

(** The rows of a customer in the frame, and the rows whose invoice number
    is stored for the customer. *)
Definition rows_of_customer (df : list Df.row) (k : Z) : list Df.row :=
  filter (fun r => Df.CustomerID r =?= k) df.

Definition rows_stored_for (df : list Df.row) (k : Z) : list Df.row :=
  filter (fun r => first_customer df (Df.InvoiceNo r) =?= k) df.

(** The amount of a row at the unit price stored for its stock code. *)
Definition stored_amount (df : list Df.row) (r : Df.row) : float8 :=
  float8mul (float8_of_Z (Df.Quantity r))
            (first_unit_price df (Df.StockCode r)).

(** The rows stored for a customer in the order in which the join of the
    embedding delivers them: invoice number by invoice number, the numbers
    in the order of their first row, the rows of a number in row order. *)
Definition rows_joined_for (df : list Df.row) (k : Z) : list Df.row :=
  flat_map (fun no => filter (fun r => Df.InvoiceNo r =?= no) df)
           (filter (fun no => first_customer df no =?= k)
                   (drop_duplicates (map Df.InvoiceNo df))).

(** The sum of whole numbers, for counting. *)
Definition total (l : list Z) : Z := fold_right Z.add 0 l.

(** A store with other rows in [invoice_items]. *)
Definition with_invoice_items (db : database) (items : list InvoiceItem.row)
  : database :=
  {| customers := customers db;
     products := products db;
     invoices := invoices db;
     invoice_items := items |}.

(** Every stored invoice has at least one item row. *)
Definition itemized (db : database) : Prop :=
  forall i, In i (invoices db) ->
    exists ii, In ii (invoice_items db)
               /\ InvoiceItem.invoice_no ii = Invoice.invoice_no i.

(** Every stock code has one unit price, every invoice number one
    customer, throughout the frame. *)
Definition single_priced (df : list Df.row) : Prop :=
  forall r1 r2, In r1 df -> In r2 df -> Df.StockCode r1 = Df.StockCode r2 ->
    Df.UnitPrice r1 = Df.UnitPrice r2.

Definition single_customer (df : list Df.row) : Prop :=
  forall r1 r2, In r1 df -> In r2 df -> Df.InvoiceNo r1 = Df.InvoiceNo r2 ->
    Df.CustomerID r1 = Df.CustomerID r2.

(** ** Sample data *)

(** A store with one customer, one invoice and two item rows. *)
Definition one_customer_db : database :=
  {| customers := [ {| Customer.customer_id := 100; Customer.country := "UK" |} ];
     products := [ {| Product.stock_code := "S1"; Product.description := "pen";
                      Product.unit_price := float8_of_Z 10 |} ];
     invoices := [ {| Invoice.invoice_no := "A1"; Invoice.invoice_date := 1000;
                      Invoice.customer_id := 100 |} ];
     invoice_items := [ {| InvoiceItem.invoice_no := "A1";
                           InvoiceItem.stock_code := "S1";
                           InvoiceItem.quantity := 2 |};
                        {| InvoiceItem.invoice_no := "A1";
                           InvoiceItem.stock_code := "S1";
                           InvoiceItem.quantity := 3 |} ] |}.

(** The row of [rfm_segmentation] for that customer on day 10. *)
Definition one_customer_row : RfmSegmentation.row :=
  {| RfmSegmentation.customer_id := 100;
     RfmSegmentation.recency := 9;
     RfmSegmentation.frequency := 1;
     RfmSegmentation.monetary := float8_of_Z 50;
     RfmSegmentation.r_score := 5;
     RfmSegmentation.f_score := 5;
     RfmSegmentation.m_score := 5;
     RfmSegmentation.rfm_score := "555";
     RfmSegmentation.segment := Champions |}.

(** Four records: one product sold at two prices on one invoice, a record
    without description, and a record of another customer under the invoice
    number of the first. *)
Definition pen_at_1 : Csv.row :=
  {| Csv.InvoiceNo := "A1"; Csv.StockCode := "S1";
     Csv.Description := Some "pen"%string; Csv.Quantity := 1;
     Csv.InvoiceDate := 1000; Csv.UnitPrice := float8_of_Z 1;
     Csv.CustomerID := Some 100; Csv.Country := "UK" |}.

Definition pen_at_2 : Csv.row :=
  {| Csv.InvoiceNo := "A1"; Csv.StockCode := "S1";
     Csv.Description := Some "pen"%string; Csv.Quantity := 1;
     Csv.InvoiceDate := 1000; Csv.UnitPrice := float8_of_Z 2;
     Csv.CustomerID := Some 100; Csv.Country := "UK" |}.

Definition no_description : Csv.row :=
  {| Csv.InvoiceNo := "A2"; Csv.StockCode := "S2";
     Csv.Description := None; Csv.Quantity := 3;
     Csv.InvoiceDate := 1000; Csv.UnitPrice := float8_of_Z 20;
     Csv.CustomerID := Some 101; Csv.Country := "UK" |}.

Definition shared_invoice : Csv.row :=
  {| Csv.InvoiceNo := "A1"; Csv.StockCode := "S2";
     Csv.Description := Some "ink"%string; Csv.Quantity := 3;
     Csv.InvoiceDate := 1000; Csv.UnitPrice := float8_of_Z 20;
     Csv.CustomerID := Some 102; Csv.Country := "FR" |}.

(** The product at two prices, alone. *)
Definition price_change_csv : list Csv.row := [pen_at_1; pen_at_2].

Definition two_price_csv : list Csv.row :=
  [pen_at_1; pen_at_2; no_description; shared_invoice].

(** The customers, products and invoices stored for that file. *)
Definition two_price_entities : database :=
  {| customers := [ {| Customer.customer_id := 100; Customer.country := "UK" |};
                    {| Customer.customer_id := 102; Customer.country := "FR" |} ];
     products := [ {| Product.stock_code := "S1"; Product.description := "pen";
                      Product.unit_price := float8_of_Z 1 |};
                   {| Product.stock_code := "S2"; Product.description := "ink";
                      Product.unit_price := float8_of_Z 20 |} ];
     invoices := [ {| Invoice.invoice_no := "A1"; Invoice.invoice_date := 1000;
                      Invoice.customer_id := 100 |} ];
     invoice_items := [] |}.

(** The four tables loaded from that file. *)
Definition two_price_db : database :=
  {| customers := customers two_price_entities;
     products := products two_price_entities;
     invoices := invoices two_price_entities;
     invoice_items :=
       [ {| InvoiceItem.invoice_no := "A1"; InvoiceItem.stock_code := "S1";
            InvoiceItem.quantity := 1 |};
         {| InvoiceItem.invoice_no := "A1"; InvoiceItem.stock_code := "S1";
            InvoiceItem.quantity := 1 |};
         {| InvoiceItem.invoice_no := "A1"; InvoiceItem.stock_code := "S2";
            InvoiceItem.quantity := 3 |} ] |}.

(** The row of [rfm_segmentation] for that file on day 10. *)
Definition shared_invoice_row : RfmSegmentation.row :=
  {| RfmSegmentation.customer_id := 100;
     RfmSegmentation.recency := 9;
     RfmSegmentation.frequency := 1;
     RfmSegmentation.monetary := float8_of_Z 62;
     RfmSegmentation.r_score := 5;
     RfmSegmentation.f_score := 5;
     RfmSegmentation.m_score := 5;
     RfmSegmentation.rfm_score := "555";
     RfmSegmentation.segment := Champions |}.


(** The row of [rfm_segmentation] that [price_change_csv] gives on day 10. *)
Definition price_change_row : RfmSegmentation.row :=
  {| RfmSegmentation.customer_id := 100;
     RfmSegmentation.recency := 9;
     RfmSegmentation.frequency := 1;
     RfmSegmentation.monetary := float8_of_Z 2;
     RfmSegmentation.r_score := 5;
     RfmSegmentation.f_score := 5;
     RfmSegmentation.m_score := 5;
     RfmSegmentation.rfm_score := "555";
     RfmSegmentation.segment := Champions |}.

(** Customer 100 with two invoices, 10 and 3 days before day 100, of 50 and
    150. *)
Definition scenario_csv : list Csv.row :=
  [ {| Csv.InvoiceNo := "536365"; Csv.StockCode := "85123A";
       Csv.Description := Some "lantern"%string; Csv.Quantity := 5;
       Csv.InvoiceDate := 90 * 86400 + 30000; Csv.UnitPrice := float8_of_Z 10;
       Csv.CustomerID := Some 100; Csv.Country := "UK" |};
    {| Csv.InvoiceNo := "536400"; Csv.StockCode := "71053";
       Csv.Description := Some "teapot"%string; Csv.Quantity := 3;
       Csv.InvoiceDate := 97 * 86400; Csv.UnitPrice := float8_of_Z 50;
       Csv.CustomerID := Some 100; Csv.Country := "UK" |} ].

(** Seven customers for the window functions. *)
Definition seven_customers : list Rfm.row :=
  map (fun k => {| Rfm.customer_id := k; Rfm.recency := 10 * k;
                   Rfm.frequency := k;
                   Rfm.monetary := float8_of_Z (100 - k) |})
      [1; 2; 3; 4; 5; 6; 7].


(** ** Further notions for the load and the result *)

(** The rows of the four frames that a row of the cleaned frame gives. *)
Definition customer_of (r : Df.row) : Customer.row :=
  customer_values (Df.CustomerID r, Df.Country r).

Definition product_of (r : Df.row) : Product.row :=
  product_values (Df.StockCode r, (Df.Description r, Df.UnitPrice r)).

Definition invoice_of (r : Df.row) : Invoice.row :=
  invoice_values (Df.InvoiceNo r, (Df.InvoiceDate r, Df.CustomerID r)).

Definition invoice_item_of (r : Df.row) : InvoiceItem.row :=
  invoice_item_values (Df.InvoiceNo r, (Df.StockCode r, Df.Quantity r)).

(** The row stored under a primary key. *)
Definition stored {K A} `{Key K} (key : A -> K) (k : K) (t : list A) : option A :=
  find (fun y => key y =?= k) t.


(** Both references of an item statement are stored. *)
Definition item_accepted (db : database) (row : string * (string * Z)) : Prop :=
  In (fst row) (map Invoice.invoice_no (invoices db))
  /\ In (fst (snd row)) (map Product.stock_code (products db)).

(** The character of a one-digit number, and the number of a digit. *)
Definition digit (z : Z) : Ascii.ascii := Ascii.ascii_of_nat (Z.to_nat (48 + z)).

Definition score_of_digit (a : Ascii.ascii) : Z :=
  Z.of_nat (Ascii.nat_of_ascii a) - 48.

(** Reading the three scores back from the column [rfm_score]. *)
Definition decode_rfm_score (s : string) : option (Z * Z * Z) :=
  match s with
  | String a (String b (String c EmptyString)) =>
      Some (score_of_digit a, score_of_digit b, score_of_digit c)
  | _ => None
  end.

(** Equality of segments, and the number of rows of a segment. *)
Definition Segment_eqb (s t : Segment) : bool :=
  match s, t with
  | Champions, Champions
  | Loyal_Customers, Loyal_Customers
  | Big_Spenders, Big_Spenders
  | Lost, Lost
  | Others, Others => true
  | _, _ => false
  end.

Definition rows_of_segment (s : Segment) (out : list RfmSegmentation.row) : nat :=
  List.length (filter (fun rec => Segment_eqb (RfmSegmentation.segment rec) s) out).

(** A store with two customers, and its two rows of the result on day 10. *)
Definition two_customer_db : database :=
  {| customers := [ {| Customer.customer_id := 100; Customer.country := "UK" |};
                    {| Customer.customer_id := 200; Customer.country := "FR" |} ];
     products := [ {| Product.stock_code := "S1"; Product.description := "pen";
                      Product.unit_price := float8_of_Z 10 |} ];
     invoices := [ {| Invoice.invoice_no := "A1"; Invoice.invoice_date := 1000;
                      Invoice.customer_id := 100 |};
                   {| Invoice.invoice_no := "B1"; Invoice.invoice_date := 500000;
                      Invoice.customer_id := 200 |} ];
     invoice_items := [ {| InvoiceItem.invoice_no := "A1";
                           InvoiceItem.stock_code := "S1";
                           InvoiceItem.quantity := 2 |};
                        {| InvoiceItem.invoice_no := "B1";
                           InvoiceItem.stock_code := "S1";
                           InvoiceItem.quantity := 1 |} ] |}.

Definition row_of_100 : RfmSegmentation.row :=
  {| RfmSegmentation.customer_id := 100;
     RfmSegmentation.recency := 9;
     RfmSegmentation.frequency := 1;
     RfmSegmentation.monetary := float8_of_Z 20;
     RfmSegmentation.r_score := 4;
     RfmSegmentation.f_score := 5;
     RfmSegmentation.m_score := 5;
     RfmSegmentation.rfm_score := "455";
     RfmSegmentation.segment := Loyal_Customers |}.

Definition row_of_200 : RfmSegmentation.row :=
  {| RfmSegmentation.customer_id := 200;
     RfmSegmentation.recency := 4;
     RfmSegmentation.frequency := 1;
     RfmSegmentation.monetary := float8_of_Z 10;
     RfmSegmentation.r_score := 5;
     RfmSegmentation.f_score := 4;
     RfmSegmentation.m_score := 4;
     RfmSegmentation.rfm_score := "544";
     RfmSegmentation.segment := Loyal_Customers |}.

(** Two products on one invoice, at 9007199254740992 (two to the 53) and
    at 1: the sum of the two amounts is not a double. *)
Definition large_price : Csv.row :=
  {| Csv.InvoiceNo := "B1"; Csv.StockCode := "L1";
     Csv.Description := Some "safe"%string; Csv.Quantity := 1;
     Csv.InvoiceDate := 1000; Csv.UnitPrice := float8_of_Z 9007199254740992;
     Csv.CustomerID := Some 100; Csv.Country := "UK" |}.

Definition small_price : Csv.row :=
  {| Csv.InvoiceNo := "B1"; Csv.StockCode := "L2";
     Csv.Description := Some "clip"%string; Csv.Quantity := 1;
     Csv.InvoiceDate := 1000; Csv.UnitPrice := float8_of_Z 1;
     Csv.CustomerID := Some 100; Csv.Country := "UK" |}.

Definition rounding_csv : list Csv.row := [large_price; small_price].

Definition rounding_row : RfmSegmentation.row :=
  {| RfmSegmentation.customer_id := 100;
     RfmSegmentation.recency := 9;
     RfmSegmentation.frequency := 1;
     RfmSegmentation.monetary := float8_of_Z 9007199254740992;
     RfmSegmentation.r_score := 5;
     RfmSegmentation.f_score := 5;
     RfmSegmentation.m_score := 5;
     RfmSegmentation.rfm_score := "555";
     RfmSegmentation.segment := Champions |}.

(** Two pieces of a product at two to the 1023, the largest power of two
    among the doubles. *)
Definition largest_price : Csv.row :=
  {| Csv.InvoiceNo := "B1"; Csv.StockCode := "L1";
     Csv.Description := Some "safe"%string; Csv.Quantity := 2;
     Csv.InvoiceDate := 1000; Csv.UnitPrice := float8_of_Z (2 ^ 1023);
     Csv.CustomerID := Some 100; Csv.Country := "UK" |}.

Definition overflow_csv : list Csv.row := [largest_price].
(** * Proofs *)

(** ** The scenario of the design document *)

Example scenario_result :
  main 100 scenario_csv
  = Done [ {| RfmSegmentation.customer_id := 100;
              RfmSegmentation.recency := 3;
              RfmSegmentation.frequency := 2;
              RfmSegmentation.monetary := float8_of_Z 200;
              RfmSegmentation.r_score := 5;
              RfmSegmentation.f_score := 5;
              RfmSegmentation.m_score := 5;
              RfmSegmentation.rfm_score := "555";
              RfmSegmentation.segment := Champions |} ].
Proof. reflexivity. Qed.

(** Double precision: the two amounts 9007199254740992 and 1 add up to
    9007199254740992, the order of the terms matters, and a product out of
    range ends the run. *)
Example rounding_result : main 10 rounding_csv = Done [rounding_row].
Proof. reflexivity. Qed.

Example SUM_order :
  SUM (map float8_of_Z [1; 1; 9007199254740992])
  = float8_of_Z 9007199254740994
  /\ SUM (map float8_of_Z [9007199254740992; 1; 1])
     = float8_of_Z 9007199254740992.
Proof. split; reflexivity. Qed.

(** A price of 0.1 is the double 7205759403792794 / 2^56; three pieces,
    and three rows of one piece, come to 5404319552844596 / 2^54, the double
    after the one nearest to 0.3. *)
Example decimal_price :
  let tenth := S754_finite false 7205759403792794 (-56) in
  float8mul (float8_of_Z 3) tenth = S754_finite false 5404319552844596 (-54)
  /\ SUM [tenth; tenth; tenth] = S754_finite false 5404319552844596 (-54)
  /\ SFdiv 53 1024 (float8_of_Z 3) (float8_of_Z 10)
     = S754_finite false 5404319552844595 (-54).
Proof. repeat split. Qed.

Example overflow_result : main 10 overflow_csv = NumericValueOutOfRange.
Proof. reflexivity. Qed.

Example ntile_buckets_7 : ntile_buckets 5 7 = [1; 1; 2; 2; 3; 4; 5].
Proof. reflexivity. Qed.

Example ntile_buckets_3 : ntile_buckets 5 3 = [1; 2; 3].
Proof. reflexivity. Qed.

Example segment_case_545 : segment_case 5 4 5 = Loyal_Customers.
Proof. reflexivity. Qed.

Example segment_case_135 : segment_case 1 3 5 = Big_Spenders.
Proof. reflexivity. Qed.

Example segment_case_132 : segment_case 1 3 2 = Lost.
Proof. reflexivity. Qed.

(** ** The order of doubles *)

Lemma float8_le_total a b : float8_le a b = true \/ float8_le b a = true.
Proof.
  unfold float8_le, SFcompare.
  destruct a as [[]|[]| |[] ma ea], b as [[]|[]| |[] mb eb]; simpl; auto;
    change (Pos.compare_cont Eq ?x ?y) with (Pos.compare x y);
    destruct (Z.compare_spec ea eb), (Z.compare_spec eb ea); try lia; auto;
    destruct (Pos.compare_spec ma mb), (Pos.compare_spec mb ma); simpl;
    try lia; auto.
Qed.

Lemma float8_le_trans a b c :
  float8_le a b = true -> float8_le b c = true -> float8_le a c = true.
Proof.
  unfold float8_le, SFcompare.
  destruct a as [[]|[]| |[] ma ea], b as [[]|[]| |[] mb eb],
    c as [[]|[]| |[] mc ec]; simpl; try reflexivity; try discriminate;
    change (Pos.compare_cont Eq ?x ?y) with (Pos.compare x y);
    destruct (Z.compare_spec ea eb), (Z.compare_spec eb ec),
      (Z.compare_spec ea ec); try lia; try reflexivity; try discriminate;
    destruct (Pos.compare_spec ma mb), (Pos.compare_spec mb mc),
      (Pos.compare_spec ma mc); simpl; try lia; try reflexivity;
      try discriminate.
Qed.

(** ** Keys, duplicates and tables *)

Section Keys.

Context {K : Type} `{Key K}.

Lemma keqb_refl (k : K) : (k =?= k) = true.
Proof. now apply keqb_eq. Qed.

Lemma keqb_neq (a b : K) : (a =?= b) = false <-> a <> b.
Proof.
  split.
  - intros E Heq. apply keqb_eq in Heq. congruence.
  - intros Hne. destruct (a =?= b) eqn:E; [|reflexivity].
    apply keqb_eq in E. contradiction.
Qed.

Lemma keqb_sym (a b : K) : (a =?= b) = (b =?= a).
Proof.
  destruct (a =?= b) eqn:E1, (b =?= a) eqn:E2; try reflexivity.
  - apply keqb_eq in E1. subst. now rewrite keqb_refl in E2.
  - apply keqb_eq in E2. subst. now rewrite keqb_refl in E1.
Qed.

Lemma existsb_keqb (x : K) l : existsb (keqb x) l = true <-> In x l.
Proof.
  rewrite existsb_exists. split.
  - intros (y & Hy & E). apply keqb_eq in E. now subst.
  - intros Hx. exists x. split; [assumption|apply keqb_refl].
Qed.

Lemma drop_duplicates_from_in (x : K) l : forall seen,
  In x (drop_duplicates_from seen l) <-> In x l /\ ~ In x seen.
Proof.
  induction l as [|y ys IH]; intros seen; simpl; [tauto|].
  destruct (existsb (keqb y) seen) eqn:E.
  - apply existsb_keqb in E. rewrite IH. split.
    + intros [H1 H2]. auto.
    + intros [[->|H1] H2]; [contradiction|auto].
  - assert (Hy : ~ In y seen)
      by (intros Hy; apply existsb_keqb in Hy; congruence).
    simpl. rewrite IH. simpl. split.
    + intros [->|[H1 H2]]; auto.
    + intros [[->|H1] H2]; auto.
      destruct (keqb y x) eqn:Eyx.
      * apply keqb_eq in Eyx. auto.
      * apply keqb_neq in Eyx. right. split; [assumption|].
        intros [?|?]; contradiction.
Qed.

Lemma drop_duplicates_in (x : K) l : In x (drop_duplicates l) <-> In x l.
Proof. unfold drop_duplicates. rewrite drop_duplicates_from_in. simpl. tauto. Qed.

Lemma drop_duplicates_from_nodup (l : list K) : forall seen,
  NoDup (drop_duplicates_from seen l).
Proof.
  induction l as [|y ys IH]; intros seen; simpl; [constructor|].
  destruct (existsb (keqb y) seen); [apply IH|].
  constructor; [|apply IH].
  rewrite drop_duplicates_from_in. simpl. tauto.
Qed.

Lemma drop_duplicates_nodup (l : list K) : NoDup (drop_duplicates l).
Proof. apply drop_duplicates_from_nodup. Qed.

(** The first row with a property is the same before and after. *)
Lemma drop_duplicates_from_find (p : K -> bool) l : forall seen,
  (forall y, In y seen -> p y = false) ->
  find p (drop_duplicates_from seen l) = find p l.
Proof.
  induction l as [|x xs IH]; intros seen Hseen; simpl; [reflexivity|].
  destruct (existsb (keqb x) seen) eqn:E.
  - apply existsb_keqb in E. rewrite (Hseen x E). now apply IH.
  - simpl. destruct (p x) eqn:Ep; [reflexivity|].
    apply IH. intros y [<-|Hy]; auto.
Qed.

Lemma drop_duplicates_find (p : K -> bool) l :
  find p (drop_duplicates l) = find p l.
Proof. apply drop_duplicates_from_find. intros y []. Qed.

End Keys.

Section Tables.

Context {K A : Type} `{Key K} (key : A -> K).

Lemma has_key_in k t : has_key key k t = true <-> In k (map key t).
Proof.
  unfold has_key. rewrite existsb_exists, in_map_iff. split.
  - intros (y & Hy & E). apply keqb_eq in E. eauto.
  - intros (y & E & Hy). exists y. split; [assumption|].
    now apply keqb_eq.
Qed.

Lemma has_key_not_in k t : has_key key k t = false <-> ~ In k (map key t).
Proof.
  rewrite <- has_key_in. destruct (has_key key k t); split; congruence.
Qed.

Lemma find_app (p : A -> bool) l1 l2 :
  find p (l1 ++ l2)
  = match find p l1 with Some x => Some x | None => find p l2 end.
Proof.
  induction l1 as [|x l1 IH]; simpl; [reflexivity|].
  now destruct (p x).
Qed.

Lemma find_none_key k t :
  find (fun y => key y =?= k) t = None <-> ~ In k (map key t).
Proof.
  rewrite <- has_key_not_in. unfold has_key.
  induction t as [|x t IH]; simpl; [tauto|].
  destruct (key x =?= k); simpl; [split; discriminate|exact IH].
Qed.

Lemma insert_do_nothing_present x t :
  In (key x) (map key t) -> insert_do_nothing key x t = t.
Proof.
  intros Hin. unfold insert_do_nothing.
  now rewrite (proj2 (has_key_in _ _) Hin).
Qed.

Lemma insert_do_nothing_keys x t k :
  In k (map key (insert_do_nothing key x t)) <-> In k (map key t) \/ k = key x.
Proof.
  unfold insert_do_nothing. destruct (has_key key (key x) t) eqn:E.
  - apply has_key_in in E. split; [auto|]. intros [?| ->]; assumption.
  - rewrite map_app, in_app_iff. simpl. intuition.
Qed.

Lemma insert_do_nothing_nodup x t :
  NoDup (map key t) -> NoDup (map key (insert_do_nothing key x t)).
Proof.
  intros ND. unfold insert_do_nothing.
  destruct (has_key key (key x) t) eqn:E; [assumption|].
  apply has_key_not_in in E.
  rewrite map_app. simpl.
  apply NoDup_rev in ND. rewrite <- (rev_involutive (map key t ++ [key x])).
  apply NoDup_rev. rewrite rev_app_distr. simpl.
  constructor; [|assumption]. now rewrite <- in_rev.
Qed.

Lemma insert_do_nothing_find x t k :
  find (fun y => key y =?= k) (insert_do_nothing key x t)
  = match find (fun y => key y =?= k) t with
    | Some y => Some y
    | None => if key x =?= k then Some x else None
    end.
Proof.
  unfold insert_do_nothing. destruct (has_key key (key x) t) eqn:E.
  - destruct (find (fun y => key y =?= k) t) eqn:F; [reflexivity|].
    destruct (key x =?= k) eqn:Ek; [|reflexivity].
    apply keqb_eq in Ek. subst k.
    apply find_none_key in F. apply has_key_in in E. contradiction.
  - now rewrite find_app.
Qed.

Lemma upsert_all_keys xs : forall t k,
  In k (map key (upsert_all key xs t))
  <-> In k (map key t) \/ In k (map key xs).
Proof.
  induction xs as [|x xs IH]; intros t k; simpl; [tauto|].
  unfold upsert_all in *. simpl. rewrite IH, insert_do_nothing_keys.
  intuition.
Qed.

Lemma upsert_all_in xs y : forall t,
  In y (upsert_all key xs t) -> In y t \/ In y xs.
Proof.
  induction xs as [|x xs IH]; intros t Ht; [now left|].
  unfold upsert_all in *. simpl in Ht. apply IH in Ht.
  destruct Ht as [Ht|Ht]; [|right; now right].
  unfold insert_do_nothing in Ht.
  destruct (has_key _ _ t); [now left|].
  apply in_app_or in Ht. simpl in *. intuition.
Qed.

Lemma upsert_all_nodup xs : forall t,
  NoDup (map key t) -> NoDup (map key (upsert_all key xs t)).
Proof.
  induction xs as [|x xs IH]; intros t ND; [assumption|].
  unfold upsert_all in *. simpl. apply IH. now apply insert_do_nothing_nodup.
Qed.

(** First write wins: the row stored under a key is the one already there,
    or else the first inserted with that key. *)
Lemma upsert_all_find xs k : forall t,
  find (fun y => key y =?= k) (upsert_all key xs t)
  = match find (fun y => key y =?= k) t with
    | Some y => Some y
    | None => find (fun y => key y =?= k) xs
    end.
Proof.
  induction xs as [|x xs IH]; intros t.
  - simpl. now destruct (find _ t).
  - unfold upsert_all in *. simpl. rewrite IH, insert_do_nothing_find.
    destruct (find (fun y => key y =?= k) t); [reflexivity|].
    now destruct (key x =?= k).
Qed.

Lemma upsert_all_present xs : forall t,
  (forall x, In x xs -> In (key x) (map key t)) -> upsert_all key xs t = t.
Proof.
  induction xs as [|x xs IH]; intros t Hin; [reflexivity|].
  unfold upsert_all in *. simpl.
  rewrite insert_do_nothing_present by (apply Hin; now left).
  apply IH. intros y Hy. apply Hin; now right.
Qed.

(** Loading the same rows again changes nothing. *)
Lemma upsert_all_twice xs t :
  upsert_all key xs (upsert_all key xs t) = upsert_all key xs t.
Proof.
  apply upsert_all_present. intros x Hx.
  apply upsert_all_keys. right. now apply in_map.
Qed.

End Tables.

(** ** Cleaning *)

Section Cleaning.

Lemma dropna_app l1 l2 : dropna (l1 ++ l2) = dropna l1 ++ dropna l2.
Proof.
  induction l1 as [|r l1 IH]; simpl; [reflexivity|].
  destruct (clean r); simpl; now rewrite IH.
Qed.

Lemma clean_incomplete r : incomplete r -> clean r = None.
Proof.
  unfold incomplete, clean. intros [E|E]; rewrite E; [reflexivity|].
  now destruct (Csv.CustomerID r).
Qed.

Lemma clean_some r r' :
  clean r = Some r' ->
  Csv.CustomerID r = Some (Df.CustomerID r')
  /\ Csv.Description r = Some (Df.Description r')
  /\ Df.InvoiceNo r' = Csv.InvoiceNo r
  /\ Df.StockCode r' = Csv.StockCode r
  /\ Df.Quantity r' = Csv.Quantity r
  /\ Df.InvoiceDate r' = Csv.InvoiceDate r
  /\ Df.UnitPrice r' = Csv.UnitPrice r
  /\ Df.Country r' = Csv.Country r
  /\ Df.TotalPrice r'
     = float8mul (float8_of_Z (Csv.Quantity r)) (Csv.UnitPrice r).
Proof.
  unfold clean.
  destruct (Csv.CustomerID r) as [c|]; [|discriminate].
  destruct (Csv.Description r) as [d|]; [|discriminate].
  intros E; inversion E; subst; simpl. repeat split.
Qed.

(** The rows of the cleaned frame are the cleaned complete records. *)
Lemma dropna_in r' csv :
  In r' (dropna csv) <-> exists r, In r csv /\ clean r = Some r'.
Proof.
  induction csv as [|x csv IH]; simpl.
  - split; [tauto|]. intros (r & [] & _).
  - destruct (clean x) as [x'|] eqn:E; simpl; rewrite IH; split.
    + intros [<-|(r & Hr & Er)]; eauto.
    + intros (r & [<-|Hr] & Er); [left; congruence|eauto].
    + intros (r & Hr & Er); eauto.
    + intros (r & [<-|Hr] & Er); [congruence|eauto].
Qed.

End Cleaning.

(** ** The load *)

Section Load.

Lemma database_eta db :
  {| customers := customers db; products := products db;
     invoices := invoices db; invoice_items := invoice_items db |} = db.
Proof. now destruct db. Qed.

Lemma for_each_unchanged {X S} (body : X -> S -> outcome S) xs s :
  (forall x, In x xs -> body x s = Done s) -> for_each body xs s = Done s.
Proof.
  induction xs as [|x xs IH]; intros Hb; simpl; [reflexivity|].
  rewrite Hb by now left. simpl. apply IH. intros y Hy. apply Hb; now right.
Qed.

Lemma for_each_insert_customer cs : forall db,
  for_each insert_customer cs db
  = Done {| customers :=
              upsert_all Customer.customer_id (map customer_values cs)
                (customers db);
            products := products db;
            invoices := invoices db;
            invoice_items := invoice_items db |}.
Proof.
  induction cs as [|c cs IH]; intros db; simpl.
  - now rewrite database_eta.
  - now rewrite IH.
Qed.

Lemma for_each_insert_product ps : forall db,
  for_each insert_product ps db
  = Done {| customers := customers db;
            products :=
              upsert_all Product.stock_code (map product_values ps)
                (products db);
            invoices := invoices db;
            invoice_items := invoice_items db |}.
Proof.
  induction ps as [|p ps IH]; intros db; simpl.
  - now rewrite database_eta.
  - now rewrite IH.
Qed.

(** What one invoice statement does when it does not fail. *)
Lemma insert_invoice_done row db db' :
  insert_invoice row db = Done db' ->
  db' = {| customers := customers db;
           products := products db;
           invoices :=
             insert_do_nothing Invoice.invoice_no (invoice_values row)
               (invoices db);
           invoice_items := invoice_items db |}.
Proof.
  unfold insert_invoice, insert_do_nothing.
  destruct (has_key Invoice.invoice_no _ (invoices db)).
  - intros E; inversion E; subst. now rewrite database_eta.
  - destruct (has_key Customer.customer_id _ (customers db)); [|discriminate].
    intros E; now inversion E.
Qed.

(** It does not fail when the key is taken or the customer is there. *)
Lemma insert_invoice_succeeds row db :
  In (fst row) (map Invoice.invoice_no (invoices db))
  \/ In (snd (snd row)) (map Customer.customer_id (customers db)) ->
  exists db', insert_invoice row db = Done db'.
Proof.
  intros Hor. unfold insert_invoice.
  destruct (has_key Invoice.invoice_no _ (invoices db)) eqn:E1; [eauto|].
  destruct (has_key Customer.customer_id _ (customers db)) eqn:E2; [eauto|].
  apply has_key_not_in in E1, E2. simpl in E1, E2. tauto.
Qed.

Lemma for_each_insert_invoice_done invs : forall db db',
  for_each insert_invoice invs db = Done db' ->
  db' = {| customers := customers db;
           products := products db;
           invoices :=
             upsert_all Invoice.invoice_no (map invoice_values invs)
               (invoices db);
           invoice_items := invoice_items db |}.
Proof.
  induction invs as [|x invs IH]; intros db db' E; simpl in E.
  - inversion E; subst. now rewrite database_eta.
  - destruct (insert_invoice x db) as [db1| |] eqn:E1; [|discriminate|discriminate].
    simpl in E. apply insert_invoice_done in E1. apply IH in E.
    subst db1. exact E.
Qed.

Lemma for_each_insert_invoice invs : forall db,
  (forall x, In x invs ->
     In (snd (snd x)) (map Customer.customer_id (customers db))) ->
  for_each insert_invoice invs db
  = Done {| customers := customers db;
            products := products db;
            invoices :=
              upsert_all Invoice.invoice_no (map invoice_values invs)
                (invoices db);
            invoice_items := invoice_items db |}.
Proof.
  induction invs as [|x invs IH]; intros db Hfk; simpl.
  - now rewrite database_eta.
  - destruct (insert_invoice_succeeds x db) as [db1 E1];
      [right; apply Hfk; now left|].
    rewrite E1. simpl. apply insert_invoice_done in E1. subst db1.
    rewrite IH; [reflexivity|].
    intros y Hy. simpl. apply Hfk; now right.
Qed.

Lemma for_each_insert_invoice_item xs : forall db,
  (forall x, In x xs ->
     In (fst x) (map Invoice.invoice_no (invoices db))
     /\ In (fst (snd x)) (map Product.stock_code (products db))) ->
  for_each insert_invoice_item xs db
  = Done {| customers := customers db;
            products := products db;
            invoices := invoices db;
            invoice_items :=
              invoice_items db ++ map invoice_item_values xs |}.
Proof.
  induction xs as [|x xs IH]; intros db Hfk; simpl.
  - now rewrite app_nil_r, database_eta.
  - unfold insert_invoice_item at 1.
    destruct (Hfk x (or_introl eq_refl)) as [H1 H2].
    apply has_key_in in H1, H2. simpl. rewrite H1, H2. simpl.
    rewrite IH by (intros y Hy; simpl; apply Hfk; now right).
    simpl. now rewrite <- app_assoc.
Qed.

(** A statement whose key is taken is a no-op. *)
Lemma insert_customer_conflict row db :
  In (fst row) (map Customer.customer_id (customers db)) ->
  insert_customer row db = Done db.
Proof.
  intros Hin. unfold insert_customer.
  rewrite insert_do_nothing_present by exact Hin.
  now rewrite database_eta.
Qed.

Lemma insert_product_conflict row db :
  In (fst row) (map Product.stock_code (products db)) ->
  insert_product row db = Done db.
Proof.
  intros Hin. unfold insert_product.
  rewrite insert_do_nothing_present by exact Hin.
  now rewrite database_eta.
Qed.

Lemma insert_invoice_conflict row db :
  In (fst row) (map Invoice.invoice_no (invoices db)) ->
  insert_invoice row db = Done db.
Proof.
  intros Hin. unfold insert_invoice.
  apply (has_key_in Invoice.invoice_no) in Hin. simpl. now rewrite Hin.
Qed.

(** What steps 4 to 6 leave behind when they do not fail. *)
Lemma load_entities_done cs ps invs db db1 :
  load_entities cs ps invs db = Done db1 ->
  db1 = {| customers :=
             upsert_all Customer.customer_id (map customer_values cs)
               (customers db);
           products :=
             upsert_all Product.stock_code (map product_values ps)
               (products db);
           invoices :=
             upsert_all Invoice.invoice_no (map invoice_values invs)
               (invoices db);
           invoice_items := invoice_items db |}.
Proof.
  unfold load_entities.
  rewrite for_each_insert_customer. cbn [bind].
  rewrite for_each_insert_product. cbn [bind].
  intros E. apply for_each_insert_invoice_done in E. exact E.
Qed.

Lemma load_entities_again cs ps invs db db1 :
  load_entities cs ps invs db = Done db1 ->
  load_entities cs ps invs db1 = Done db1.
Proof.
  intros E. apply load_entities_done in E.
  unfold load_entities.
  rewrite for_each_insert_customer. cbn [bind].
  rewrite for_each_insert_product. cbn [bind].
  assert (E1 : upsert_all Customer.customer_id (map customer_values cs)
                 (customers db1) = customers db1)
    by (subst db1; apply upsert_all_twice).
  assert (E2 : upsert_all Product.stock_code (map product_values ps)
                 (products db1) = products db1)
    by (subst db1; apply upsert_all_twice).
  cbn [customers products invoices invoice_items].
  rewrite E1, E2, database_eta.
  apply for_each_unchanged. intros x Hx.
  apply insert_invoice_conflict. subst db1. cbn [invoices].
  apply upsert_all_keys. right. rewrite map_map. simpl.
  now apply in_map.
Qed.

Lemma load_entities_primary_keys cs ps invs db db1 :
  load_entities cs ps invs db = Done db1 ->
  primary_keys db -> primary_keys db1.
Proof.
  intros E (H1 & H2 & H3). apply load_entities_done in E. subst db1.
  unfold primary_keys; simpl.
  repeat split; now apply upsert_all_nodup.
Qed.

(** The keys of the loaded tables are the values of the frame columns. *)
Lemma loaded_customer_ids df k :
  In k (map Customer.customer_id (customers (loaded df)))
  <-> In k (map Df.CustomerID df).
Proof.
  unfold loaded, customers_frame. simpl.
  rewrite upsert_all_keys, map_map. simpl.
  rewrite !in_map_iff. split.
  - intros [[]|(x & <- & Hx)].
    apply drop_duplicates_in, in_map_iff in Hx. destruct Hx as (r & <- & Hr).
    simpl. eauto.
  - intros (r & <- & Hr). right.
    exists (Df.CustomerID r, Df.Country r). split; [reflexivity|].
    apply drop_duplicates_in, in_map_iff. eauto.
Qed.

Lemma loaded_stock_codes df k :
  In k (map Product.stock_code (products (loaded df)))
  <-> In k (map Df.StockCode df).
Proof.
  unfold loaded, products_frame. simpl.
  rewrite upsert_all_keys, map_map. simpl.
  rewrite !in_map_iff. split.
  - intros [[]|(x & <- & Hx)].
    apply drop_duplicates_in, in_map_iff in Hx. destruct Hx as (r & <- & Hr).
    simpl. eauto.
  - intros (r & <- & Hr). right.
    exists (Df.StockCode r, (Df.Description r, Df.UnitPrice r)).
    split; [reflexivity|].
    apply drop_duplicates_in, in_map_iff. eauto.
Qed.

Lemma loaded_invoice_nos df k :
  In k (map Invoice.invoice_no (invoices (loaded df)))
  <-> In k (map Df.InvoiceNo df).
Proof.
  unfold loaded, invoices_frame. simpl.
  rewrite upsert_all_keys, map_map. simpl.
  rewrite !in_map_iff. split.
  - intros [[]|(x & <- & Hx)].
    apply drop_duplicates_in, in_map_iff in Hx. destruct Hx as (r & <- & Hr).
    simpl. eauto.
  - intros (r & <- & Hr). right.
    exists (Df.InvoiceNo r, (Df.InvoiceDate r, Df.CustomerID r)).
    split; [reflexivity|].
    apply drop_duplicates_in, in_map_iff. eauto.
Qed.

(** The load of a cleaned frame into the fresh schema goes through and
    leaves the tables [loaded]. *)
Lemma load_into_created df : load_into df created = Done (loaded df).
Proof.
  unfold load_into.
  rewrite for_each_insert_customer. cbn [bind].
  rewrite for_each_insert_product. cbn [bind customers products invoices
    invoice_items created].
  rewrite for_each_insert_invoice; cbn [bind customers products invoices
    invoice_items].
  - rewrite for_each_insert_invoice_item; cbn [customers products invoices
      invoice_items]; [reflexivity|].
    intros x Hx. unfold invoice_items_frame in Hx.
    apply in_map_iff in Hx. destruct Hx as (r & <- & Hr). simpl. split.
    + apply (loaded_invoice_nos df). now apply in_map.
    + apply (loaded_stock_codes df). now apply in_map.
  - intros x Hx. unfold invoices_frame in Hx.
    apply drop_duplicates_in, in_map_iff in Hx.
    destruct Hx as (r & <- & Hr). simpl.
    apply (loaded_customer_ids df). now apply in_map.
Qed.

Lemma loaded_primary_keys df : primary_keys (loaded df).
Proof.
  unfold primary_keys, loaded; simpl.
  repeat split; apply upsert_all_nodup; constructor.
Qed.

Lemma loaded_referential_integrity df : referential_integrity (loaded df).
Proof.
  split.
  - intros i Hi. apply loaded_customer_ids.
    assert (Hk : In (Invoice.invoice_no i, (Invoice.invoice_date i, Invoice.customer_id i))
                   (invoices_frame df)).
    { unfold loaded in Hi; simpl in Hi.
      apply upsert_all_in in Hi. destruct Hi as [[]|Hi].
      apply in_map_iff in Hi. destruct Hi as ([no [d c]] & <- & Hx).
      exact Hx. }
    unfold invoices_frame in Hk.
    apply drop_duplicates_in, in_map_iff in Hk.
    destruct Hk as (r & E & Hr). inversion E. now apply in_map.
  - intros ii Hii. unfold loaded in Hii; simpl in Hii.
    unfold invoice_items_frame in Hii. rewrite map_map in Hii.
    apply in_map_iff in Hii. destruct Hii as (r & <- & Hr). simpl. split.
    + apply loaded_invoice_nos. now apply in_map.
    + apply loaded_stock_codes. now apply in_map.
Qed.

End Load.

(** ** NTILE *)

Section Ntile.

Lemma ntile_rows_app s m1 m2 :
  ntile_rows s (m1 + m2) = ntile_rows s m1 ++ ntile_rows (ntile_after s m1) m2.
Proof.
  revert s; induction m1 as [|m1 IH]; intros s; simpl; [reflexivity|].
  now rewrite IH.
Qed.

Lemma ntile_after_app s m1 m2 :
  ntile_after s (m1 + m2) = ntile_after (ntile_after s m1) m2.
Proof.
  revert s; induction m1 as [|m1 IH]; intros s; simpl; [reflexivity|].
  now rewrite IH.
Qed.

(** Rows that still fit under the boundary stay in the current bucket. *)
Lemma ntile_fill m : forall b j B R,
  j + Z.of_nat m <= B ->
  ntile_rows (Build_ntile_context b j B R) m = repeat b m
  /\ ntile_after (Build_ntile_context b j B R) m
     = Build_ntile_context b (j + Z.of_nat m) B R.
Proof.
  induction m as [|m IH]; intros b j B R Hle.
  - simpl. rewrite Z.add_0_r. auto.
  - cbn [ntile_rows ntile_after repeat].
    assert (Hstep : ntile_next (Build_ntile_context b j B R)
                    = Build_ntile_context b (j + 1) B R).
    { unfold ntile_next; simpl.
      destruct (Z.ltb_spec B (j + 1)) as [H|H]; [lia | reflexivity]. }
    rewrite Hstep. simpl ntile.
    destruct (IH b (j + 1) B R ltac:(lia)) as [E1 E2].
    rewrite E1, E2. split; [reflexivity|]. f_equal. lia.
Qed.

(** The first row past the boundary opens the next bucket. *)
Lemma ntile_next_up b B R :
  ntile_next (Build_ntile_context b B B R)
  = if negb (R =? 0) && (b =? R)
    then Build_ntile_context (b + 1) 1 (B - 1) 0
    else Build_ntile_context (b + 1) 1 B R.
Proof.
  unfold ntile_next; cbn [rows_per_bucket boundary remainder ntile].
  rewrite (proj2 (Z.ltb_lt B (B + 1))) by lia.
  reflexivity.
Qed.

(** A full bucket is followed by the next one, of the same size, as long
    as the remainder is not used up at this bucket. *)
Lemma ntile_next_bucket (nB : nat) b R :
  (1 <= nB)%nat -> R = 0 \/ b <> R ->
  let s := Build_ntile_context b (Z.of_nat nB) (Z.of_nat nB) R in
  ntile_rows s nB = repeat (b + 1) nB
  /\ ntile_after s nB = Build_ntile_context (b + 1) (Z.of_nat nB) (Z.of_nat nB) R.
Proof.
  intros HB HR s. subst s.
  destruct nB as [|m]; [lia|].
  remember (Z.of_nat (S m)) as B eqn:EB.
  cbn [ntile_rows ntile_after repeat].
  rewrite ntile_next_up.
  replace (negb (R =? 0) && (b =? R)) with false.
  2:{ destruct (Z.eqb_spec R 0); [reflexivity|].
      destruct (Z.eqb_spec b R); [|reflexivity]. destruct HR; contradiction. }
  cbn [ntile].
  destruct (ntile_fill m (b + 1) 1 B R ltac:(lia)) as [E1 E2].
  rewrite E1, E2. split; [reflexivity|]. f_equal. lia.
Qed.

(** The bucket after the last one that takes an extra row is one smaller. *)
Lemma ntile_switch_bucket (nq : nat) R :
  (1 <= nq)%nat -> R <> 0 ->
  let s := Build_ntile_context R (Z.of_nat (S nq)) (Z.of_nat (S nq)) R in
  ntile_rows s nq = repeat (R + 1) nq
  /\ ntile_after s nq = Build_ntile_context (R + 1) (Z.of_nat nq) (Z.of_nat nq) 0.
Proof.
  intros Hq HR s. subst s.
  destruct nq as [|m]; [lia|].
  remember (Z.of_nat (S (S m))) as B eqn:EB.
  remember (Z.of_nat (S m)) as B' eqn:EB'.
  cbn [ntile_rows ntile_after repeat].
  rewrite ntile_next_up.
  replace (negb (R =? 0) && (R =? R)) with true.
  2:{ rewrite Z.eqb_refl. destruct (Z.eqb_spec R 0); [contradiction|reflexivity]. }
  cbn [ntile].
  destruct (ntile_fill m (R + 1) 1 (B - 1) 0 ltac:(lia)) as [E1 E2].
  rewrite E1, E2. split; [reflexivity|]. f_equal; lia.
Qed.

(** [k] buckets of the same size in a row. *)
Lemma ntile_same_size_buckets (nB : nat) R k : forall b,
  (1 <= nB)%nat -> R = 0 \/ b + Z.of_nat k <= R \/ R < b ->
  let s := Build_ntile_context b (Z.of_nat nB) (Z.of_nat nB) R in
  ntile_rows s (k * nB)
  = flat_map (fun i => repeat (b + Z.of_nat i) nB) (seq 1 k)
  /\ ntile_after s (k * nB)
     = Build_ntile_context (b + Z.of_nat k) (Z.of_nat nB) (Z.of_nat nB) R.
Proof.
  induction k as [|k IH]; intros b HB HR s; subst s.
  - simpl. rewrite Z.add_0_r. auto.
  - replace (S k * nB)%nat with (nB + k * nB)%nat by lia.
    rewrite ntile_rows_app, ntile_after_app.
    destruct (ntile_next_bucket nB b R HB ltac:(lia)) as [E1 E2].
    rewrite E1, E2.
    destruct (IH (b + 1) HB ltac:(lia)) as [E3 E4].
    rewrite E3, E4. split.
    + cbn [seq flat_map]. f_equal.
      rewrite <- (seq_shift k 1).
      rewrite (flat_map_concat_map _ (map S _)), map_map, <- flat_map_concat_map.
      apply flat_map_ext. intros i. f_equal. lia.
    + f_equal. lia.
Qed.

Lemma flat_map_ext_in {A B} (f g : A -> list B) l :
  (forall x, In x l -> f x = g x) -> flat_map f l = flat_map g l.
Proof.
  intros E. rewrite !flat_map_concat_map. f_equal. now apply map_ext_in.
Qed.

Lemma seq_head s k : (1 <= k)%nat -> seq s k = s :: seq (S s) (k - 1).
Proof.
  destruct k as [|k]; [lia|]. intros _. simpl. now rewrite Nat.sub_0_r.
Qed.

Lemma blocks_shift (c m k : nat) : forall s,
  flat_map (fun i => repeat (Z.of_nat c + Z.of_nat i) m) (seq s k)
  = flat_map (fun b => repeat (Z.of_nat b) m) (seq (c + s) k).
Proof.
  induction k as [|k IH]; intros s; [reflexivity|].
  cbn [seq flat_map]. rewrite IH. f_equal.
  - f_equal. lia.
  - now replace (c + S s)%nat with (S (c + s)) by lia.
Qed.

(** The layout, with the buckets that take an extra row set apart. *)
Lemma bucket_layout_split n N :
  (1 <= n)%nat ->
  bucket_layout n N
  = flat_map (fun b => repeat (Z.of_nat b) (S (N / n))) (seq 1 (N mod n))
    ++ flat_map (fun b => repeat (Z.of_nat b) (N / n))
         (seq (1 + N mod n) (n - N mod n)).
Proof.
  intros Hn. unfold bucket_layout.
  assert (Hr : (N mod n < n)%nat) by (apply Nat.mod_upper_bound; lia).
  replace (seq 1 n) with (seq 1 (N mod n + (n - N mod n)))
    by (f_equal; lia).
  rewrite seq_app, flat_map_app. f_equal; apply flat_map_ext_in; intros b Hb;
    apply in_seq in Hb; unfold bucket_size; f_equal.
  - destruct (Nat.leb_spec b (N mod n)); lia.
  - destruct (Nat.leb_spec b (N mod n)); lia.
Qed.

(** The row-by-row evaluation fills bucket after bucket with the sizes of
    the layout. *)
Lemma ntile_buckets_layout n N :
  (1 <= n)%nat -> ntile_buckets (Z.of_nat n) N = bucket_layout n N.
Proof.
  intros Hn. rewrite bucket_layout_split by assumption.
  unfold ntile_buckets, ntile_first.
  rewrite <- Nat2Z.inj_div, <- Nat2Z.inj_mod.
  assert (HN : N = (n * (N / n) + N mod n)%nat) by (apply Nat.div_mod_eq).
  assert (Hr : (N mod n < n)%nat) by (apply Nat.mod_upper_bound; lia).
  set (q := (N / n)%nat) in *. set (r := (N mod n)%nat) in *.
  destruct (Z.leb_spec (Z.of_nat q) 0) as [Hq|Hq].
  - (* fewer rows than buckets: one row each *)
    assert (q = 0)%nat by lia. 
    assert (HNr : N = r) by lia.
    replace q with 0%nat by lia.
    rewrite (flat_map_ext_in _ (fun _ => []) (seq (1 + r) (n - r)))
      by reflexivity.
    replace (flat_map (fun _ : nat => @nil Z) (seq (1 + r) (n - r))) with (@nil Z)
      by (induction (seq (1 + r) (n - r)); auto).
    rewrite app_nil_r, HNr. clear.
    destruct r as [|k]; [reflexivity|].
    replace (S k) with (1 + k * 1)%nat at 1 by lia.
    rewrite ntile_rows_app.
    destruct (ntile_fill 1 1 0 1 0 ltac:(lia)) as [E1 E2]. rewrite E1, E2.
    change (0 + Z.of_nat 1) with 1.
    destruct (ntile_same_size_buckets 1 0 k 1 ltac:(lia) ltac:(lia)) as [E3 _].
    change (Z.of_nat 1) with 1 in E3. rewrite E3.
    cbn [seq flat_map repeat app]. f_equal.
    exact (blocks_shift 1 1 k 1).
  - destruct (Z.eqb_spec (Z.of_nat r) 0) as [Hr0|Hr0].
    + (* the rows divide evenly *)
      assert (r = 0)%nat by lia.
      replace r with 0%nat in * by lia.
      change (Z.of_nat 0) with 0. change (1 + 0)%nat with 1%nat.
      cbn [seq flat_map app].
      replace (n - 0)%nat with (S (n - 1)) by lia.
      replace N with (q + (n - 1) * q)%nat at 1 by nia.
      rewrite ntile_rows_app.
      destruct (ntile_fill q 1 0 (Z.of_nat q) 0 ltac:(lia)) as [E1 E2].
      rewrite E1, E2. rewrite Z.add_0_l.
      destruct (ntile_same_size_buckets q 0 (n - 1) 1 ltac:(lia) ltac:(lia))
        as [E3 _].
      rewrite E3. cbn [seq flat_map]. f_equal.
      exact (blocks_shift 1 q (n - 1) 1).
    + (* [r] buckets of [q + 1] rows, then [n - r] buckets of [q] rows *)
      assert (1 <= r)%nat by lia.
      rewrite (seq_head 1 r), (seq_head (1 + r) (n - r)) by lia.
      replace (1 + r)%nat with (r + 1)%nat by lia.
      replace (S (r + 1)) with (r + 1 + 1)%nat by lia.
      replace (Z.of_nat q + 1) with (Z.of_nat (S q)) by lia.
      replace N with (S q + ((r - 1) * S q + (q + (n - r - 1) * q)))%nat at 1
        by nia.
      rewrite !ntile_rows_app, <- !ntile_after_app.
      rewrite !ntile_after_app.
      destruct (ntile_fill (S q) 1 0 (Z.of_nat (S q)) (Z.of_nat r) ltac:(lia))
        as [E1 E2].
      rewrite E1, E2. rewrite Z.add_0_l.
      destruct (ntile_same_size_buckets (S q) (Z.of_nat r) (r - 1) 1
                  ltac:(lia) ltac:(lia)) as [E3 E4].
      rewrite E3, E4.
      replace (1 + Z.of_nat (r - 1)) with (Z.of_nat r) by lia.
      destruct (ntile_switch_bucket q (Z.of_nat r) ltac:(lia) ltac:(lia))
        as [E5 E6].
      rewrite E5, E6.
      destruct (ntile_same_size_buckets q 0 (n - r - 1) (Z.of_nat r + 1)
                  ltac:(lia) ltac:(lia)) as [E7 _].
      rewrite E7.
      cbn [flat_map]. rewrite <- ?app_assoc. f_equal.
      rewrite (blocks_shift 1 (S q) (r - 1) 1 : flat_map
                 (fun i => repeat (1 + Z.of_nat i) (S q)) (seq 1 (r - 1)) = _).
      f_equal.
      replace (Z.of_nat r + 1) with (Z.of_nat (r + 1)) by lia.
      now rewrite blocks_shift.
Qed.

Lemma ntile_rows_length s n : List.length (ntile_rows s n) = n.
Proof.
  revert s; induction n as [|n IH]; intros s; simpl; [reflexivity|].
  now rewrite IH.
Qed.

Lemma ntile_next_mono s : ntile s <= ntile (ntile_next s).
Proof.
  unfold ntile_next.
  destruct (boundary s <? rows_per_bucket s + 1);
    [destruct (negb (remainder s =? 0) && (ntile s =? remainder s))|];
    simpl; lia.
Qed.

(** Bucket numbers never go down along the sort order. *)
Lemma ntile_rows_sorted n : forall s,
  StronglySorted Z.le (ntile_rows s n)
  /\ Forall (fun b => ntile s <= b) (ntile_rows s n).
Proof.
  induction n as [|n IH]; intros s; simpl.
  - split; constructor.
  - destruct (IH (ntile_next s)) as [S1 F1].
    pose proof (ntile_next_mono s) as Hm.
    split; constructor; auto.
    eapply Forall_impl; [|exact F1]. simpl. intros; lia.
Qed.

Lemma bucket_layout_count n N b :
  (1 <= b <= n)%nat ->
  count_occ Z.eq_dec (bucket_layout n N) (Z.of_nat b) = bucket_size n N b.
Proof.
  intros Hb. unfold bucket_layout.
  assert (G : forall l, NoDup l ->
            count_occ Z.eq_dec
              (flat_map (fun b => repeat (Z.of_nat b) (bucket_size n N b)) l)
              (Z.of_nat b)
            = if in_dec Nat.eq_dec b l then bucket_size n N b else 0%nat).
  { induction l as [|a l IH]; intros ND; [reflexivity|].
    inversion ND as [|? ? Hna ND']; subst.
    cbn [flat_map]. rewrite count_occ_app, (IH ND').
    destruct (Nat.eq_dec a b) as [->|Hab].
    - rewrite count_occ_repeat_eq by reflexivity.
      destruct (in_dec Nat.eq_dec b l); [contradiction|].
      destruct (in_dec Nat.eq_dec b (b :: l)) as [_|Hn]; [lia|].
      exfalso; apply Hn; now left.
    - rewrite count_occ_repeat_neq by lia.
      destruct (in_dec Nat.eq_dec b l) as [Hi|Hi];
        destruct (in_dec Nat.eq_dec b (a :: l)) as [Hj|Hj]; try reflexivity.
      + exfalso; apply Hj; now right.
      + destruct Hj; [congruence|contradiction]. }
  rewrite G by apply seq_NoDup.
  destruct (in_dec Nat.eq_dec b (seq 1 n)) as [_|Hn]; [reflexivity|].
  exfalso; apply Hn, in_seq; lia.
Qed.

Lemma bucket_layout_range n N x :
  In x (bucket_layout n N) -> 1 <= x <= Z.of_nat n.
Proof.
  unfold bucket_layout. rewrite in_flat_map. intros (b & Hb & Hx).
  apply repeat_spec in Hx. apply in_seq in Hb. lia.
Qed.

End Ntile.

(** ** ORDER BY and the window *)

Section Window.

Context {A : Type} (le : A -> A -> bool).

Lemma insert_sorted_perm x l : Permutation (insert_sorted le x l) (x :: l).
Proof.
  induction l as [|y ys IH]; simpl; [reflexivity|].
  destruct (le x y); [reflexivity|].
  rewrite IH. apply perm_swap.
Qed.

Lemma order_by_perm l : Permutation (order_by le l) l.
Proof.
  induction l as [|x xs IH]; simpl; [reflexivity|].
  rewrite insert_sorted_perm. now constructor.
Qed.

Hypothesis le_total : forall a b, le a b = true \/ le b a = true.
Hypothesis le_trans : forall a b c, le a b = true -> le b c = true -> le a c = true.

Lemma insert_sorted_sorted x l :
  StronglySorted (fun a b => le a b = true) l ->
  StronglySorted (fun a b => le a b = true) (insert_sorted le x l).
Proof.
  induction 1 as [|y ys Hs IH Hy]; simpl.
  - repeat constructor.
  - destruct (le x y) eqn:E.
    + constructor; [now constructor|].
      constructor; [exact E|].
      eapply Forall_impl; [|exact Hy]. intros z Hz. now apply (le_trans x y z).
    + constructor; [exact IH|].
      assert (Hyx : le y x = true) by (destruct (le_total x y); congruence).
      rewrite Forall_forall in *. intros z Hz.
      apply (Permutation_in _ (insert_sorted_perm x ys)) in Hz.
      destruct Hz as [<-|Hz]; auto.
Qed.

Lemma order_by_sorted l :
  StronglySorted (fun a b => le a b = true) (order_by le l).
Proof.
  induction l as [|x xs IH]; simpl; [constructor|].
  now apply insert_sorted_sorted.
Qed.

End Window.

Section Assoc.

Lemma assoc_combine (idx : list nat) : forall (vs : list Z),
  NoDup idx -> List.length idx = List.length vs ->
  map (fun k => assoc k (combine idx vs)) idx = vs.
Proof.
  induction idx as [|k idx IH]; intros [|v vs] ND HL; try discriminate;
    [reflexivity|].
  inversion ND as [|? ? Hk ND']; subst.
  cbn [combine map assoc]. rewrite Nat.eqb_refl. f_equal.
  transitivity (map (fun j => assoc j (combine idx vs)) idx);
    [|apply (IH vs ND'); simpl in HL; lia].
  apply map_ext_in. intros j Hj.
  destruct (Nat.eqb_spec j k) as [->|_]; [contradiction|reflexivity].
Qed.

Lemma assoc_in {E} (S : list (nat * E)) : forall (V : list Z) e v,
  NoDup (map fst S) -> In (e, v) (combine S V) ->
  assoc (fst e) (combine (map fst S) V) = v.
Proof.
  induction S as [|e0 S IH]; intros [|v0 V] e v ND HI; try contradiction.
  cbn [map] in ND. inversion ND as [|? ? Hk ND']; subst.
  cbn [combine map assoc] in *.
  destruct HI as [HI|HI].
  - inversion HI; subst. now rewrite Nat.eqb_refl.
  - destruct (Nat.eqb_spec (fst e) (fst e0)) as [Ee|_].
    + exfalso. apply Hk. rewrite <- Ee.
      apply in_map. eapply in_combine_l; eauto.
    + eapply IH; eauto.
Qed.

Lemma combine_in_l {E F} (S : list E) : forall (V : list F) e,
  List.length S = List.length V -> In e S -> exists v, In (e, v) (combine S V).
Proof.
  induction S as [|e0 S IH]; intros [|v0 V] e HL HI; try discriminate;
    try contradiction.
  destruct HI as [->|HI].
  - exists v0. now left.
  - destruct (IH V e ltac:(simpl in HL; lia) HI) as [v Hv].
    exists v. now right.
Qed.

Lemma combine_sorted {E F} (R1 : E -> E -> Prop) (R2 : F -> F -> Prop) S :
  forall V,
  StronglySorted R1 S -> StronglySorted R2 V ->
  StronglySorted (fun a b => R1 (fst a) (fst b) /\ R2 (snd a) (snd b))
    (combine S V).
Proof.
  induction S as [|e S IH]; intros [|v V] H1 H2; try constructor.
  - apply IH; [now inversion H1 | now inversion H2].
  - inversion H1 as [|? ? _ F1]; inversion H2 as [|? ? _ F2]; subst.
    rewrite Forall_forall in *. intros [e' v'] Hin. simpl. split.
    + apply F1. eapply in_combine_l; eauto.
    + apply F2. eapply in_combine_r; eauto.
Qed.

Lemma sorted_related {E} (R : E -> E -> Prop) l a b :
  StronglySorted R l -> In a l -> In b l -> a = b \/ R a b \/ R b a.
Proof.
  induction 1 as [|x xs Hs IH Hx]; intros Ha Hb; [contradiction|].
  rewrite Forall_forall in Hx.
  destruct Ha as [<-|Ha], Hb as [<-|Hb]; auto.
Qed.

Lemma numbered_fst {E} (l : list E) :
  map fst (numbered l) = seq 0 (List.length l).
Proof.
  unfold numbered.
  assert (G : forall (k : list nat), List.length k = List.length l ->
            map fst (combine k l) = k).
  { induction l as [|x l IH]; intros [|i k] HL; try discriminate;
      [reflexivity|].
    simpl. f_equal. apply IH. simpl in HL; lia. }
  apply G. apply length_seq.
Qed.

Lemma numbered_snd {E} (l : list E) : map snd (numbered l) = l.
Proof.
  unfold numbered. generalize 0%nat.
  induction l as [|x l IH]; intros n; [reflexivity|].
  simpl. now rewrite IH.
Qed.

End Assoc.

Section NtileOver.

Context {A : Type} (le : A -> A -> bool) (rows : list A).
Variable n : nat.
Hypothesis n_pos : (1 <= n)%nat.

Let sorted := order_by (fun a b => le (snd a) (snd b)) (numbered rows).

Local Lemma sorted_perm : Permutation sorted (numbered rows).
Proof. apply order_by_perm. Qed.

Local Lemma sorted_idx_perm :
  Permutation (map fst sorted) (seq 0 (List.length rows)).
Proof.
  rewrite <- numbered_fst. apply Permutation_map, sorted_perm.
Qed.

Local Lemma sorted_idx_nodup : NoDup (map fst sorted).
Proof.
  eapply Permutation_NoDup; [symmetry; apply sorted_idx_perm|apply seq_NoDup].
Qed.

Local Lemma sorted_length : List.length sorted = List.length rows.
Proof.
  rewrite <- (length_map fst), (Permutation_length sorted_idx_perm).
  apply length_seq.
Qed.

(** Read back by row position, the window gives the buckets of the layout,
    each as often as the layout has it. *)
Lemma ntile_over_layout :
  Permutation
    (map (fun nx => assoc (fst nx) (ntile_over (Z.of_nat n) le rows))
         (numbered rows))
    (bucket_layout n (List.length rows)).
Proof.
  rewrite <- (map_map fst (fun k => assoc k (ntile_over (Z.of_nat n) le rows))).
  rewrite <- ntile_buckets_layout by assumption.
  rewrite <- (Permutation_map _ (Permutation_map fst sorted_perm)).
  unfold ntile_over. fold sorted.
  rewrite assoc_combine; [reflexivity|apply sorted_idx_nodup|].
  rewrite length_map, sorted_length.
  unfold ntile_buckets. now rewrite ntile_rows_length.
Qed.

Hypothesis le_total : forall a b, le a b = true \/ le b a = true.
Hypothesis le_trans : forall a b c, le a b = true -> le b c = true -> le a c = true.

(** A row in a lower bucket sorts before a row in a higher bucket. *)
Lemma ntile_over_order nx ny :
  In nx (numbered rows) -> In ny (numbered rows) ->
  assoc (fst nx) (ntile_over (Z.of_nat n) le rows)
  < assoc (fst ny) (ntile_over (Z.of_nat n) le rows) ->
  le (snd nx) (snd ny) = true.
Proof.
  intros Hx Hy.
  set (V := ntile_buckets (Z.of_nat n) (List.length rows)).
  assert (HL : List.length sorted = List.length V)
    by (rewrite sorted_length; unfold V, ntile_buckets;
        now rewrite ntile_rows_length).
  apply (Permutation_in _ (Permutation_sym sorted_perm)) in Hx, Hy.
  destruct (combine_in_l sorted V nx HL Hx) as [vx Hvx].
  destruct (combine_in_l sorted V ny HL Hy) as [vy Hvy].
  unfold ntile_over. fold sorted. fold V.
  rewrite (assoc_in sorted V nx vx sorted_idx_nodup Hvx).
  rewrite (assoc_in sorted V ny vy sorted_idx_nodup Hvy).
  intros Hlt.
  assert (HS : StronglySorted
                 (fun a b => le (snd (fst a)) (snd (fst b)) = true
                             /\ snd a <= snd b)
                 (combine sorted V)).
  { apply (combine_sorted (fun a b => le (snd a) (snd b) = true) Z.le).
    - apply (order_by_sorted (fun a b => le (snd a) (snd b))).
      + intros a b. apply le_total.
      + intros a b c. apply le_trans.
    - apply ntile_rows_sorted. }
  destruct (sorted_related _ _ _ _ HS Hvx Hvy) as [E|[[H1 H2]|[H1 H2]]];
    simpl in *.
  - inversion E; lia.
  - exact H1.
  - lia.
Qed.

End NtileOver.

(** ** The window functions of [rfm_ntile] *)

Section Quintiles.

Lemma Forall2_map_self {X Y} (R : X -> Y -> Prop) (h : X -> Y) l :
  (forall x, In x l -> R x (h x)) -> Forall2 R l (map h l).
Proof.
  induction l as [|x l IH]; intros H; simpl; constructor.
  - apply H; now left.
  - apply IH. intros y Hy. apply H; now right.
Qed.

(** The arithmetic of the sizes. *)
Lemma quintile_partition_of_layout {X} (bucket : X -> Z) (out : list X) :
  Permutation (map bucket out) (bucket_layout 5 (List.length out)) ->
  quintile_partition bucket out.
Proof.
  intros HP.
  assert (Hsize : forall b, (1 <= b <= 5)%nat ->
            rows_in_bucket bucket (Z.of_nat b) out
            = bucket_size 5 (List.length out) b).
  { intros b Hb. unfold rows_in_bucket.
    rewrite (proj1 (Permutation_count_occ Z.eq_dec _ _) HP).
    now apply bucket_layout_count. }
  set (N := List.length out) in *.
  assert (HN : N = (5 * (N / 5) + N mod 5)%nat) by apply Nat.div_mod_eq.
  assert (Hr : (N mod 5 < 5)%nat) by (apply Nat.mod_upper_bound; lia).
  assert (Hc : ((N + 4) / 5 = N / 5 + (if (1 <=? N mod 5)%nat then 1 else 0))%nat).
  { destruct (Nat.leb_spec 1 (N mod 5)).
    - symmetry. apply Nat.div_unique with (r := (N mod 5 - 1)%nat); lia.
    - symmetry. apply Nat.div_unique with (r := 4%nat); lia. }
  unfold quintile_partition. fold N. cbv zeta.
  repeat split.
  - apply (bucket_layout_range 5 N).
    apply (Permutation_in _ HP). now apply in_map.
  - apply (bucket_layout_range 5 N).
    apply (Permutation_in _ HP). now apply in_map.
  - intros b Hb. now rewrite Hsize.
  - intros b Hb. rewrite Hsize, Hc by assumption. unfold bucket_size.
    destruct (Nat.leb_spec b (N mod 5)), (Nat.leb_spec 1 (N mod 5)); lia.
  - rewrite !Hsize by lia. unfold bucket_size.
    destruct (Nat.leb_spec 1 (N mod 5)), (Nat.leb_spec 2 (N mod 5)),
      (Nat.leb_spec 3 (N mod 5)), (Nat.leb_spec 4 (N mod 5)),
      (Nat.leb_spec 5 (N mod 5)); lia.
  - intros b b' H1 H2 H3. rewrite !Hsize by lia. unfold bucket_size.
    destruct (Nat.leb_spec b (N mod 5)), (Nat.leb_spec b' (N mod 5)); lia.
Qed.

Lemma rfm_ntile_length rows : List.length (rfm_ntile rows) = List.length rows.
Proof.
  unfold rfm_ntile. rewrite length_map.
  rewrite <- (length_map fst), numbered_fst. apply length_seq.
Qed.

End Quintiles.

Section RfmNtile.

Variable rows : list Rfm.row.

Lemma rfm_ntile_partition :
  quintile_partition RfmNtile.r_ntile (rfm_ntile rows)
  /\ quintile_partition RfmNtile.f_ntile (rfm_ntile rows)
  /\ quintile_partition RfmNtile.m_ntile (rfm_ntile rows).
Proof.
  assert (Q : forall (le : Rfm.row -> Rfm.row -> bool) bucket,
            (forall nx,
               bucket (rfm_ntile_row rows nx) = assoc (fst nx) (ntile_over 5 le rows)) ->
            quintile_partition bucket (rfm_ntile rows)).
  { intros le bucket E. apply quintile_partition_of_layout.
    rewrite rfm_ntile_length. unfold rfm_ntile. rewrite map_map.
    rewrite (map_ext _ _ E). apply (ntile_over_layout le rows 5). lia. }
  split; [apply (Q recency_asc); reflexivity|].
  split; [apply (Q frequency_desc); reflexivity|].
  apply (Q monetary_desc); reflexivity.
Qed.

Lemma Zleb_total (key : Rfm.row -> Z) a b :
  (key a <=? key b) = true \/ (key b <=? key a) = true.
Proof. rewrite !Z.leb_le. lia. Qed.

Lemma Zleb_trans (key : Rfm.row -> Z) a b c :
  (key a <=? key b) = true -> (key b <=? key c) = true ->
  (key a <=? key c) = true.
Proof. rewrite !Z.leb_le. lia. Qed.

Lemma rfm_ntile_order x y :
  In x (rfm_ntile rows) -> In y (rfm_ntile rows) ->
  (RfmNtile.r_ntile x < RfmNtile.r_ntile y ->
   RfmNtile.recency x <= RfmNtile.recency y)
  /\ (RfmNtile.f_ntile x < RfmNtile.f_ntile y ->
      RfmNtile.frequency y <= RfmNtile.frequency x)
  /\ (RfmNtile.m_ntile x < RfmNtile.m_ntile y ->
      float8_le (RfmNtile.monetary y) (RfmNtile.monetary x) = true).
Proof.
  intros H H0.
  unfold rfm_ntile in H, H0; apply in_map_iff in H, H0;
    destruct H as (nx & <- & Hx), H0 as (ny & <- & Hy).
  split; [|split]; simpl; intros Hlt; try apply Z.leb_le.
  - apply (ntile_over_order recency_asc rows 5 ltac:(lia)) with (nx := nx) (ny := ny);
      auto; unfold recency_asc; intros.
    + apply Zleb_total.
    + eapply Zleb_trans; eauto.
  - apply (ntile_over_order frequency_desc rows 5 ltac:(lia)) with (nx := nx) (ny := ny);
      auto; unfold frequency_desc; intros.
    + apply Zleb_total.
    + eapply (Zleb_trans Rfm.frequency c b a); eauto.
  - apply (ntile_over_order monetary_desc rows 5 ltac:(lia)) with (nx := nx) (ny := ny);
      auto; unfold monetary_desc; intros.
    + apply float8_le_total.
    + eapply float8_le_trans; eauto.
Qed.

End RfmNtile.


(** ** Scores and segments *)

Section Scores.

Lemma segment_case_first_match r f m : first_match r f m (segment_case r f m).
Proof.
  unfold first_match, segment_case, is_champion, is_loyal, is_big_spender,
    is_lost.
  rewrite !Z.geb_leb.
  destruct (Z.eqb_spec r 5), (Z.eqb_spec f 5), (Z.eqb_spec m 5),
    (Z.leb_spec 4 r), (Z.leb_spec 4 f), (Z.eqb_spec r 1); simpl;
    try lia;
    (repeat split; intros; try discriminate; try lia;
     repeat match goal with
            | H : _ /\ _ |- _ => destruct H
            | H : ~ (_ /\ _) |- _ => exfalso; apply H; repeat split; lia
            | |- ~ _ => intro
            end; try lia; try contradiction; try reflexivity).
Qed.

Lemma select_segmentation_in rec rows :
  In rec (select_segmentation rows) ->
  RfmSegmentation.segment rec
  = segment_case (RfmSegmentation.r_score rec) (RfmSegmentation.f_score rec)
      (RfmSegmentation.m_score rec).
Proof.
  unfold select_segmentation. rewrite in_map_iff. intros (x & <- & _).
  reflexivity.
Qed.

End Scores.

(** ** The join and the groups *)

Section Join.

Variable db : database.

Lemma from_clause_in j :
  In j (from_clause db) <->
  In (Joined.c j) (customers db) /\ In (Joined.i j) (invoices db)
  /\ In (Joined.ii j) (invoice_items db) /\ In (Joined.p j) (products db)
  /\ Customer.customer_id (Joined.c j) = Invoice.customer_id (Joined.i j)
  /\ Invoice.invoice_no (Joined.i j) = InvoiceItem.invoice_no (Joined.ii j)
  /\ InvoiceItem.stock_code (Joined.ii j) = Product.stock_code (Joined.p j).
Proof.
  unfold from_clause. rewrite in_flat_map. split.
  - intros (c & Hc & H1). apply in_flat_map in H1.
    destruct H1 as (i & Hi & H2). apply in_flat_map in H2.
    destruct H2 as (ii & Hii & H3). apply in_map_iff in H3.
    destruct H3 as (p & <- & Hp).
    apply filter_In in Hi, Hii, Hp. simpl.
    destruct Hi as [Hi Ei], Hii as [Hii Eii], Hp as [Hp Ep].
    apply keqb_eq in Ei, Eii, Ep. tauto.
  - destruct j as [c i ii p]. cbn [Joined.c Joined.i Joined.ii Joined.p].
    intros (Hc & Hi & Hii & Hp & Ei & Eii & Ep).
    exists c. split; [assumption|]. apply in_flat_map.
    exists i. split; [apply filter_In; split; [assumption|now apply keqb_eq]|].
    apply in_flat_map.
    exists ii. split; [apply filter_In; split; [assumption|now apply keqb_eq]|].
    apply in_map. apply filter_In; split; [assumption|now apply keqb_eq].
Qed.

Lemma group_key_reachable k :
  In k (map group_key (from_clause db)) <-> reachable db k.
Proof.
  rewrite in_map_iff. unfold reachable, group_key. split.
  - intros (j & Ek & Hj). apply from_clause_in in Hj.
    destruct Hj as (Hc & Hi & Hii & Hp & Ei & Eii & Ep).
    exists (Joined.c j), (Joined.i j), (Joined.ii j), (Joined.p j).
    repeat split; auto; congruence.
  - intros (c & i & ii & p & Hc & Hi & Hii & Hp & Ec & Ei & Eii & Ep).
    exists {| Joined.c := c; Joined.i := i; Joined.ii := ii; Joined.p := p |}.
    split; [exact Ec|]. apply from_clause_in. simpl.
    repeat split; auto; congruence.
Qed.

Variable current_date : Z.

Lemma rfm_customer_ids :
  map Rfm.customer_id (rfm current_date db)
  = drop_duplicates (map group_key (from_clause db)).
Proof.
  unfold rfm. rewrite map_map. simpl. apply map_id.
Qed.

Lemma rfm_segmentation_customer_ids :
  map RfmSegmentation.customer_id (rfm_segmentation current_date db)
  = map Rfm.customer_id (rfm current_date db).
Proof.
  unfold rfm_segmentation, select_segmentation, rfm_scores, rfm_ntile.
  rewrite !map_map. simpl.
  rewrite <- (map_map snd Rfm.customer_id). now rewrite numbered_snd.
Qed.

(** The customers of [rfm_segmentation] are those the joins reach, each
    once. *)
Lemma rfm_segmentation_member k :
  In k (map RfmSegmentation.customer_id (rfm_segmentation current_date db))
  <-> reachable db k.
Proof.
  rewrite rfm_segmentation_customer_ids, rfm_customer_ids.
  rewrite drop_duplicates_in. apply group_key_reachable.
Qed.

Lemma rfm_segmentation_one_row_each :
  NoDup (map RfmSegmentation.customer_id (rfm_segmentation current_date db)).
Proof.
  rewrite rfm_segmentation_customer_ids, rfm_customer_ids.
  apply drop_duplicates_nodup.
Qed.

(** The metrics of a row are the aggregates of its group. *)
Lemma rfm_segmentation_metrics rec :
  In rec (rfm_segmentation current_date db) ->
  let g := group (RfmSegmentation.customer_id rec) (from_clause db) in
  In (RfmSegmentation.customer_id rec) (map group_key (from_clause db))
  /\ RfmSegmentation.recency rec
     = days_since current_date
         (MAX (map (fun j => Invoice.invoice_date (Joined.i j)) g))
  /\ RfmSegmentation.frequency rec
     = COUNT_DISTINCT (map (fun j => Invoice.invoice_no (Joined.i j)) g)
  /\ RfmSegmentation.monetary rec = SUM (map amount g).
Proof.
  unfold rfm_segmentation, select_segmentation, rfm_scores, rfm_ntile.
  rewrite !map_map. rewrite in_map_iff. intros (nx & <- & Hnx). simpl.
  assert (Hx : In (snd nx) (rfm current_date db))
    by (rewrite <- (numbered_snd (rfm current_date db)); now apply in_map).
  unfold rfm in Hx. apply in_map_iff in Hx. destruct Hx as (k & <- & Hk).
  simpl. rewrite drop_duplicates_in in Hk. auto.
Qed.

End Join.

(** ** Sums over joins *)

Section Sums.

Local Abbreviation sigma g l := (total (map g l)).

Lemma total_app l1 l2 : total (l1 ++ l2) = total l1 + total l2.
Proof.
  induction l1 as [|x l1 IH]; simpl; [reflexivity|]. rewrite IH. lia.
Qed.

Lemma sigma_ext {X} (g h : X -> Z) l :
  (forall x, In x l -> g x = h x) -> sigma g l = sigma h l.
Proof. intros E. f_equal. now apply map_ext_in. Qed.

Lemma sigma_filter {X} (g : X -> Z) (P : X -> bool) l :
  sigma g (filter P l) = sigma (fun x => if P x then g x else 0) l.
Proof.
  induction l as [|x l IH]; simpl; [reflexivity|].
  destruct (P x); simpl; now rewrite IH.
Qed.

Lemma sigma_flat_map {X Y} (g : Y -> Z) (h : X -> list Y) l :
  sigma g (flat_map h l) = sigma (fun x => sigma g (h x)) l.
Proof.
  induction l as [|x l IH]; simpl; [reflexivity|].
  now rewrite map_app, total_app, IH.
Qed.

Lemma sigma_zero {X} (l : list X) : sigma (fun _ => 0) l = 0.
Proof. induction l as [|x l IH]; simpl; [reflexivity|]. now rewrite IH. Qed.

Lemma sigma_plus {X} (g h : X -> Z) l :
  sigma (fun x => g x + h x) l = sigma g l + sigma h l.
Proof.
  induction l as [|x l IH]; simpl; [reflexivity|]. rewrite IH. lia.
Qed.

Lemma sigma_if {X} (b : bool) (g : X -> Z) l :
  sigma (fun x => if b then g x else 0) l = if b then sigma g l else 0.
Proof. destruct b; [reflexivity|apply sigma_zero]. Qed.

Lemma sigma_swap {X Y} (g : X -> Y -> Z) l1 l2 :
  sigma (fun x => sigma (fun y => g x y) l2) l1
  = sigma (fun y => sigma (fun x => g x y) l1) l2.
Proof.
  induction l1 as [|x l1 IH]; simpl.
  - now rewrite sigma_zero.
  - now rewrite IH, <- sigma_plus.
Qed.

(** Under a primary key, the sum over the rows with a given key is the
    value at the one row that has it. *)
Lemma sigma_unique {K X} `{Key K} (key : X -> K) (g : X -> Z) k t :
  NoDup (map key t) ->
  sigma (fun y => if key y =?= k then g y else 0) t
  = match find (fun y => key y =?= k) t with
    | Some y => g y
    | None => 0
    end.
Proof.
  induction t as [|x t IH]; intros ND; simpl; [reflexivity|].
  inversion ND as [|? ? Hx ND']; subst.
  destruct (key x =?= k) eqn:E.
  - apply keqb_eq in E. subst k.
    rewrite (sigma_ext _ (fun _ => 0)), sigma_zero; [lia|].
    intros y Hy. destruct (key y =?= key x) eqn:E; [|reflexivity].
    apply keqb_eq in E. exfalso. apply Hx. rewrite <- E. now apply in_map.
  - now rewrite IH.
Qed.

Lemma find_map {X Y} (p : Y -> bool) (g : X -> Y) l :
  find p (map g l) = option_map g (find (fun x => p (g x)) l).
Proof.
  induction l as [|x l IH]; simpl; [reflexivity|].
  now destruct (p (g x)).
Qed.

Lemma find_key_some {K X} `{Key K} (key : X -> K) k t :
  In k (map key t) -> exists y, find (fun y => key y =?= k) t = Some y.
Proof.
  intros Hin. destruct (find (fun y => key y =?= k) t) eqn:F; [eauto|].
  apply find_none_key in F. contradiction.
Qed.

End Sums.

(** ** The metrics of the loaded tables *)

Lemma NoDup_map_filter {X Y} (f : X -> Y) (P : X -> bool) l :
  NoDup (map f l) -> NoDup (map f (filter P l)).
Proof.
  induction l as [|x l IH]; cbn [filter map]; [constructor|].
  intros ND. inversion ND as [|? ? Hx ND']; subst.
  destruct (P x); cbn [map]; [|now apply IH].
  constructor; [|now apply IH].
  intros Hin. apply Hx. apply in_map_iff in Hin.
  destruct Hin as (x' & E & Hx'). apply filter_In in Hx'.
  rewrite <- E. apply in_map. tauto.
Qed.

Lemma count_distinct_nodup {K} `{Key K} (l : list K) :
  NoDup l -> COUNT_DISTINCT l = Z.of_nat (List.length l).
Proof.
  intros ND. unfold COUNT_DISTINCT. f_equal.
  apply Permutation_length. apply NoDup_Permutation; auto.
  - apply drop_duplicates_nodup.
  - intros x. apply drop_duplicates_in.
Qed.

Section Frequency.

Variable db : database.
Hypothesis keys : primary_keys db.
Hypothesis refs : referential_integrity db.
Hypothesis items : itemized db.

(** The invoice numbers in the group of a customer are those of the
    invoices stored for the customer. *)
Lemma group_invoice_nos k no :
  In no (map (fun j => Invoice.invoice_no (Joined.i j))
             (group k (from_clause db)))
  <-> In no (map Invoice.invoice_no (invoices_of db k)).
Proof.
  unfold group, invoices_of. rewrite !in_map_iff. split.
  - intros (j & <- & Hj). apply filter_In in Hj. destruct Hj as [Hj Ek].
    apply keqb_eq in Ek. apply from_clause_in in Hj.
    destruct Hj as (_ & Hi & _ & _ & Ei & _).
    exists (Joined.i j). split; [reflexivity|].
    apply filter_In. split; [assumption|]. apply keqb_eq.
    unfold group_key in Ek. congruence.
  - intros (i & <- & Hi). apply filter_In in Hi. destruct Hi as [Hi Ek].
    apply keqb_eq in Ek. destruct refs as [Rc Ri].
    pose proof (Rc i Hi) as Hc. apply in_map_iff in Hc.
    destruct Hc as (c & Ec & Hc).
    destruct (items i Hi) as (ii & Hii & Eii).
    destruct (Ri ii Hii) as [_ Hp]. apply in_map_iff in Hp.
    destruct Hp as (p & Ep & Hp).
    exists {| Joined.c := c; Joined.i := i; Joined.ii := ii; Joined.p := p |}.
    split; [reflexivity|]. apply filter_In. split.
    + apply from_clause_in. simpl. repeat split; auto.
    + apply keqb_eq. unfold group_key. simpl. congruence.
Qed.

Lemma invoices_of_nodup k :
  NoDup (map Invoice.invoice_no (invoices_of db k)).
Proof.
  destruct keys as (_ & _ & NDi). unfold invoices_of.
  now apply NoDup_map_filter.
Qed.

(** [COUNT(DISTINCT i.invoice_no)] over the group of a customer counts the
    invoices stored for the customer. *)
Lemma frequency_by_invoices k :
  COUNT_DISTINCT (map (fun j => Invoice.invoice_no (Joined.i j))
                      (group k (from_clause db)))
  = Z.of_nat (List.length (invoices_of db k)).
Proof.
  unfold COUNT_DISTINCT. f_equal.
  rewrite <- (length_map Invoice.invoice_no (invoices_of db k)).
  apply Permutation_length. apply NoDup_Permutation.
  - apply drop_duplicates_nodup.
  - apply invoices_of_nodup.
  - intros no. rewrite drop_duplicates_in. apply group_invoice_nos.
Qed.

End Frequency.

Section Loaded.

Variable df : list Df.row.

Lemma loaded_itemized : itemized (loaded df).
Proof.
  intros i Hi.
  assert (Hno : In (Invoice.invoice_no i) (map Df.InvoiceNo df))
    by (apply loaded_invoice_nos; now apply in_map).
  apply in_map_iff in Hno. destruct Hno as (r & E & Hr).
  exists (invoice_item_values
            (Df.InvoiceNo r, (Df.StockCode r, Df.Quantity r))).
  split; [|exact E].
  unfold loaded, invoice_items_frame. simpl. rewrite map_map.
  apply in_map_iff. exists r. auto.
Qed.

(** First write wins, in terms of the frame. *)
Lemma loaded_product_find code :
  find (fun p => Product.stock_code p =?= code) (products (loaded df))
  = option_map
      (fun r => product_values
                  (Df.StockCode r, (Df.Description r, Df.UnitPrice r)))
      (find (fun r => Df.StockCode r =?= code) df).
Proof.
  unfold loaded, products_frame. cbn [products].
  rewrite upsert_all_find. cbn [find].
  rewrite find_map, drop_duplicates_find, find_map.
  now destruct (find _ df).
Qed.

Lemma loaded_invoice_find no :
  find (fun i => Invoice.invoice_no i =?= no) (invoices (loaded df))
  = option_map
      (fun r => invoice_values
                  (Df.InvoiceNo r, (Df.InvoiceDate r, Df.CustomerID r)))
      (find (fun r => Df.InvoiceNo r =?= no) df).
Proof.
  unfold loaded, invoices_frame. cbn [invoices].
  rewrite upsert_all_find. cbn [find].
  rewrite find_map, drop_duplicates_find, find_map.
  now destruct (find _ df).
Qed.

Lemma dropna_total_price csv r :
  In r (dropna csv) ->
  Df.TotalPrice r = float8mul (float8_of_Z (Df.Quantity r)) (Df.UnitPrice r).
Proof.
  intros Hr. apply dropna_in in Hr. destruct Hr as (r0 & _ & E).
  apply clean_some in E.
  destruct E as (_ & _ & _ & _ & E5 & _ & E7 & _ & E9). congruence.
Qed.

End Loaded.

(** The load of a cleaned frame never fails, so the script is the RFM
    statement on the loaded tables. *)
Lemma main_loaded current_date csv :
  main current_date csv
  = create_rfm_segmentation current_date (loaded (dropna csv)).
Proof. unfold main, load. now rewrite load_into_created. Qed.

Lemma create_rfm_segmentation_done current_date db out :
  create_rfm_segmentation current_date db = Done out ->
  out = rfm_segmentation current_date db.
Proof.
  unfold create_rfm_segmentation. destruct (rfm_raises db); [discriminate|].
  now intros [= <-].
Qed.

Lemma main_done current_date csv out :
  main current_date csv = Done out ->
  out = rfm_segmentation current_date (loaded (dropna csv)).
Proof. rewrite main_loaded. apply create_rfm_segmentation_done. Qed.

(** ** More on the loaded tables *)

Section KeyOrder.

Context {K A : Type} `{Key K} (key : A -> K).

Lemma has_key_existsb k t : has_key key k t = existsb (keqb k) (map key t).
Proof.
  unfold has_key. induction t as [|x t IH]; simpl; [reflexivity|].
  now rewrite IH, keqb_sym.
Qed.

(** Only the set of rows seen matters. *)
Lemma drop_duplicates_from_ext (l : list K) : forall seen seen',
  (forall y, In y seen <-> In y seen') ->
  drop_duplicates_from seen l = drop_duplicates_from seen' l.
Proof.
  induction l as [|x l IH]; intros seen seen' E; simpl; [reflexivity|].
  assert (Ex : existsb (keqb x) seen = existsb (keqb x) seen').
  { destruct (existsb (keqb x) seen) eqn:E1, (existsb (keqb x) seen') eqn:E2;
      try reflexivity.
    - apply existsb_keqb, E, existsb_keqb in E1. congruence.
    - apply existsb_keqb, E, existsb_keqb in E2. congruence. }
  rewrite Ex. destruct (existsb (keqb x) seen'); [now apply IH|].
  f_equal. apply IH. intros y. simpl. now rewrite E.
Qed.

(** The keys of a table are in the order in which they first came. *)
Lemma upsert_all_key_order xs : forall t,
  map key (upsert_all key xs t)
  = map key t ++ drop_duplicates_from (map key t) (map key xs).
Proof.
  induction xs as [|x xs IH]; intros t.
  - simpl. now rewrite app_nil_r.
  - unfold upsert_all in *. cbn [fold_left map drop_duplicates_from].
    rewrite IH. unfold insert_do_nothing.
    rewrite has_key_existsb.
    destruct (existsb (keqb (key x)) (map key t)); [reflexivity|].
    rewrite map_app, <- app_assoc. simpl. f_equal. f_equal.
    apply drop_duplicates_from_ext. intros y.
    rewrite in_app_iff. simpl. tauto.
Qed.

End KeyOrder.

(** Removing the duplicate rows first does not change which values of a
    column come first. *)
Lemma drop_duplicates_map {X Y} `{Key X} `{Key Y} (f : X -> Y) l :
  forall seenX seenY,
  (forall x, In x seenX -> In (f x) seenY) ->
  drop_duplicates_from seenY (map f (drop_duplicates_from seenX l))
  = drop_duplicates_from seenY (map f l).
Proof.
  induction l as [|x l IH]; intros seenX seenY Hs; [reflexivity|].
  cbn [map drop_duplicates_from].
  destruct (existsb (keqb x) seenX) eqn:Ex.
  - apply existsb_keqb in Ex.
    rewrite (proj2 (existsb_keqb (f x) seenY) (Hs x Ex)).
    now apply IH.
  - cbn [map drop_duplicates_from].
    destruct (existsb (keqb (f x)) seenY) eqn:Ey.
    + apply existsb_keqb in Ey. apply IH.
      intros y [<-|Hy]; auto.
    + f_equal. apply IH. intros y [<-|Hy]; [now left|right; auto].
Qed.

Section LoadedRows.

Variable df : list Df.row.

Lemma frame_keys {X} `{Key X} {Y} `{Key Y} (row : Df.row -> X) (key : X -> Y) :
  drop_duplicates (map key (drop_duplicates (map row df)))
  = drop_duplicates (map (fun r => key (row r)) df).
Proof.
  unfold drop_duplicates.
  rewrite (drop_duplicates_map key (map row df) [] []) by (intros x []).
  now rewrite map_map.
Qed.

Lemma loaded_customer_order :
  map Customer.customer_id (customers (loaded df))
  = drop_duplicates (map Df.CustomerID df).
Proof.
  unfold loaded, customers_frame. cbn [customers].
  rewrite upsert_all_key_order, map_map. cbn [map app].
  exact (frame_keys (fun r => (Df.CustomerID r, Df.Country r)) fst).
Qed.

Lemma loaded_product_order :
  map Product.stock_code (products (loaded df))
  = drop_duplicates (map Df.StockCode df).
Proof.
  unfold loaded, products_frame. cbn [products].
  rewrite upsert_all_key_order, map_map. cbn [map app].
  exact (frame_keys
           (fun r => (Df.StockCode r, (Df.Description r, Df.UnitPrice r))) fst).
Qed.

Lemma loaded_invoice_order :
  map Invoice.invoice_no (invoices (loaded df))
  = drop_duplicates (map Df.InvoiceNo df).
Proof.
  unfold loaded, invoices_frame. cbn [invoices].
  rewrite upsert_all_key_order, map_map. cbn [map app].
  exact (frame_keys
           (fun r => (Df.InvoiceNo r, (Df.InvoiceDate r, Df.CustomerID r))) fst).
Qed.

Lemma loaded_items : invoice_items (loaded df) = map invoice_item_of df.
Proof.
  unfold loaded, invoice_items_frame. cbn [invoice_items]. apply map_map.
Qed.

Lemma loaded_customer_stored k :
  stored Customer.customer_id k (customers (loaded df))
  = option_map customer_of (find (fun r => Df.CustomerID r =?= k) df).
Proof.
  unfold stored, loaded, customers_frame. cbn [customers].
  rewrite upsert_all_find. cbn [find].
  rewrite find_map, drop_duplicates_find, find_map.
  now destruct (find _ df).
Qed.

Lemma loaded_product_stored k :
  stored Product.stock_code k (products (loaded df))
  = option_map product_of (find (fun r => Df.StockCode r =?= k) df).
Proof. apply loaded_product_find. Qed.

Lemma loaded_invoice_stored k :
  stored Invoice.invoice_no k (invoices (loaded df))
  = option_map invoice_of (find (fun r => Df.InvoiceNo r =?= k) df).
Proof. apply loaded_invoice_find. Qed.

End LoadedRows.

Lemma NoDup_map_same {X Y} (f : X -> Y) l x y :
  NoDup (map f l) -> In x l -> In y l -> f x = f y -> x = y.
Proof.
  induction l as [|z l IH]; intros ND Hx Hy E; [contradiction|].
  inversion ND as [|? ? Hz ND']; subst.
  destruct Hx as [->|Hx], Hy as [->|Hy]; auto.
  - exfalso. apply Hz. rewrite E. now apply in_map.
  - exfalso. apply Hz. rewrite <- E. now apply in_map.
Qed.

Lemma find_in_nodup {K X} `{Key K} (key : X -> K) x t :
  NoDup (map key t) -> In x t -> find (fun y => key y =?= key x) t = Some x.
Proof.
  induction t as [|y t IH]; intros ND Hx; [contradiction|].
  inversion ND as [|? ? Hy ND']; subst. cbn [find].
  destruct Hx as [->|Hx].
  - now rewrite keqb_refl.
  - destruct (key y =?= key x) eqn:E; [|now apply IH].
    apply keqb_eq in E. exfalso. apply Hy. rewrite E. now apply in_map.
Qed.

(** ** The amounts of a group *)

Section Lists.

Lemma filter_of_flat_map {X Y} (P : Y -> bool) (h : X -> list Y) l :
  filter P (flat_map h l) = flat_map (fun x => filter P (h x)) l.
Proof.
  induction l as [|x l IH]; simpl; [reflexivity|].
  now rewrite filter_app, IH.
Qed.

Lemma map_of_flat_map {X Y W} (g : Y -> W) (h : X -> list Y) l :
  map g (flat_map h l) = flat_map (fun x => map g (h x)) l.
Proof.
  induction l as [|x l IH]; simpl; [reflexivity|].
  now rewrite map_app, IH.
Qed.

Lemma flat_map_of_map {X Y W} (g : X -> Y) (h : Y -> list W) l :
  flat_map h (map g l) = flat_map (fun x => h (g x)) l.
Proof.
  induction l as [|x l IH]; simpl; [reflexivity|]. now rewrite IH.
Qed.

Lemma flat_map_of_filter {X Y} (P : X -> bool) (h : X -> list Y) l :
  flat_map h (filter P l) = flat_map (fun x => if P x then h x else []) l.
Proof.
  induction l as [|x l IH]; simpl; [reflexivity|].
  destruct (P x); simpl; now rewrite IH.
Qed.

Lemma flat_map_same {X Y} (g h : X -> list Y) l :
  (forall x, In x l -> g x = h x) -> flat_map g l = flat_map h l.
Proof.
  induction l as [|x l IH]; intros E; simpl; [reflexivity|].
  rewrite E by now left. rewrite IH; [reflexivity|].
  intros y Hy. apply E. now right.
Qed.

Lemma flat_map_nothing {X Y} (l : list X) :
  flat_map (fun _ => @nil Y) l = [].
Proof. induction l as [|x l IH]; simpl; auto. Qed.

Lemma flat_map_one {X Y} (h : X -> list Y) (g : X -> Y) l :
  (forall x, In x l -> h x = [g x]) -> flat_map h l = map g l.
Proof.
  induction l as [|x l IH]; intros E; simpl; [reflexivity|].
  rewrite E by now left. simpl. f_equal. apply IH.
  intros y Hy. apply E. now right.
Qed.

Lemma filter_of_map {X Y} (P : Y -> bool) (g : X -> Y) l :
  filter P (map g l) = map g (filter (fun x => P (g x)) l).
Proof.
  induction l as [|x l IH]; simpl; [reflexivity|].
  destruct (P (g x)); simpl; now rewrite IH.
Qed.

Lemma filter_all_or_none {X} (P : X -> bool) (b : bool) l :
  (forall x, In x l -> P x = b) -> filter P l = if b then l else [].
Proof.
  induction l as [|x l IH]; intros E; simpl; [now destruct b|].
  rewrite E by now left. rewrite IH by (intros y Hy; apply E; now right).
  now destruct b.
Qed.

(** Under a primary key the rows with a given key are the one row that
    has it. *)
Lemma flat_map_unique {K X Y} `{Key K} (key : X -> K) (h : X -> list Y) k t :
  NoDup (map key t) ->
  flat_map (fun y => if key y =?= k then h y else []) t
  = match find (fun y => key y =?= k) t with
    | Some y => h y
    | None => []
    end.
Proof.
  induction t as [|x t IH]; intros ND; simpl; [reflexivity|].
  inversion ND as [|? ? Hx ND']; subst.
  destruct (key x =?= k) eqn:E.
  - apply keqb_eq in E. subst k.
    rewrite (flat_map_same _ (fun _ => [])), flat_map_nothing;
      [apply app_nil_r|].
    intros y Hy. destruct (key y =?= key x) eqn:E; [|reflexivity].
    apply keqb_eq in E. exfalso. apply Hx. rewrite <- E. now apply in_map.
  - now rewrite IH.
Qed.

(** Two filters that exclude each other split the rows that pass one of
    them. *)
Lemma filter_either {X} (P Q : X -> bool) l :
  (forall x, P x = true -> Q x = true -> False) ->
  Permutation (filter P l ++ filter Q l) (filter (fun x => P x || Q x) l).
Proof.
  intros D. induction l as [|x l IH]; simpl; [constructor|].
  destruct (P x) eqn:EP, (Q x) eqn:EQ; simpl.
  - destruct (D x EP EQ).
  - now constructor.
  - apply Permutation_sym. apply Permutation_cons_app.
    now apply Permutation_sym.
  - exact IH.
Qed.

(** The rows taken key by key, for distinct keys, are the rows with one of
    the keys, in another order. *)
Lemma rows_by_key {K X} `{Key K} (key : X -> K) (ks : list K) l :
  NoDup ks ->
  Permutation (flat_map (fun k => filter (fun r => key r =?= k) l) ks)
              (filter (fun r => existsb (keqb (key r)) ks) l).
Proof.
  induction ks as [|k ks IH]; intros ND; simpl.
  - rewrite (filter_all_or_none _ false) by reflexivity. constructor.
  - inversion ND as [|? ? Hk ND']; subst.
    eapply Permutation_trans;
      [apply Permutation_app_head, IH, ND'|].
    apply filter_either. intros r E1 E2.
    apply keqb_eq in E1. apply existsb_keqb in E2. congruence.
Qed.

End Lists.

Section GroupAmounts.

Variable db : database.
Hypothesis keys : primary_keys db.

(** The amounts of the group of a customer, in the order of the join: the
    invoices stored for the customer in table order, the item rows of each
    in table order, each at the price of the product row of its stock
    code. *)
Lemma group_amounts k :
  In k (map Customer.customer_id (customers db)) ->
  map amount (group k (from_clause db))
  = flat_map (fun i =>
      flat_map (fun ii =>
        match find (fun p => Product.stock_code p
                             =?= InvoiceItem.stock_code ii)
                   (products db) with
        | Some p => [float8mul (float8_of_Z (InvoiceItem.quantity ii))
                               (Product.unit_price p)]
        | None => []
        end)
        (filter (fun ii => Invoice.invoice_no i =?= InvoiceItem.invoice_no ii)
                (invoice_items db)))
      (filter (fun i => k =?= Invoice.customer_id i) (invoices db)).
Proof.
  intros Hk. destruct keys as (NDc & NDp & NDi).
  set (B := flat_map _ (filter (fun i => k =?= Invoice.customer_id i) _)).
  unfold group, from_clause.
  rewrite filter_of_flat_map, map_of_flat_map.
  rewrite (flat_map_same _
             (fun c => if Customer.customer_id c =?= k then B else [])).
  - rewrite (flat_map_unique Customer.customer_id (fun _ => B)) by assumption.
    destruct (find_key_some Customer.customer_id k (customers db) Hk) as [c Fc].
    now rewrite Fc.
  - intros c Hc.
    rewrite (filter_all_or_none _ (Customer.customer_id c =?= k)).
    2:{ intros j Hj. apply in_flat_map in Hj. destruct Hj as (i & _ & Hj).
        apply in_flat_map in Hj. destruct Hj as (ii & _ & Hj).
        apply in_map_iff in Hj. destruct Hj as (p & <- & _). reflexivity. }
    destruct (Customer.customer_id c =?= k) eqn:Ec; [|reflexivity].
    apply keqb_eq in Ec. subst k. unfold B.
    rewrite map_of_flat_map. apply flat_map_same. intros i Hi.
    rewrite map_of_flat_map. apply flat_map_same. intros ii Hii.
    rewrite map_map. unfold amount. cbn [Joined.ii Joined.p].
    rewrite (filter_ext _ (fun p => Product.stock_code p
                                    =?= InvoiceItem.stock_code ii))
      by (intros p; apply keqb_sym).
    rewrite <- (flat_map_one
                  (fun p => [float8mul (float8_of_Z (InvoiceItem.quantity ii))
                                       (Product.unit_price p)])
                  _ _ (fun _ _ => eq_refl)).
    rewrite flat_map_of_filter.
    now apply (flat_map_unique Product.stock_code).
Qed.

End GroupAmounts.

Section LoadedAmounts.

Variable df : list Df.row.

Lemma loaded_invoice_customer i :
  In i (invoices (loaded df)) ->
  Invoice.customer_id i = first_customer df (Invoice.invoice_no i).
Proof.
  intros Hi. destruct (loaded_primary_keys df) as (_ & _ & NDi).
  pose proof (find_in_nodup Invoice.invoice_no i _ NDi Hi) as F.
  rewrite loaded_invoice_find in F. unfold first_customer.
  destruct (find _ df) as [r|]; [|discriminate].
  injection F as <-. reflexivity.
Qed.

(** The amounts that [SUM] adds up for a customer, in terms of the frame:
    those of the rows whose invoice number is stored for the customer, at
    the stored prices, invoice number by invoice number. *)
Lemma loaded_amounts k :
  In k (map Customer.customer_id (customers (loaded df))) ->
  map amount (group k (from_clause (loaded df)))
  = map (stored_amount df) (rows_joined_for df k).
Proof.
  intros Hk.
  rewrite (group_amounts (loaded df) (loaded_primary_keys df) k Hk).
  set (per_item := fun ii : InvoiceItem.row => _).
  set (per_no := fun no =>
         flat_map per_item
           (filter (fun ii => no =?= InvoiceItem.invoice_no ii)
                   (invoice_items (loaded df)))).
  unfold rows_joined_for.
  rewrite map_of_flat_map, !flat_map_of_filter.
  rewrite <- loaded_invoice_order, flat_map_of_map.
  apply flat_map_same. intros i Hi.
  rewrite (loaded_invoice_customer i Hi), keqb_sym.
  destruct (first_customer df (Invoice.invoice_no i) =?= k); [|reflexivity].
  rewrite loaded_items, filter_of_map, flat_map_of_map.
  rewrite (filter_ext _ (fun r => Df.InvoiceNo r =?= Invoice.invoice_no i))
    by (intros r; apply keqb_sym).
  apply flat_map_one. intros r Hr. apply filter_In in Hr.
  destruct Hr as [Hr _]. unfold per_item, stored_amount, first_unit_price.
  cbn [invoice_item_of invoice_item_values InvoiceItem.stock_code
       InvoiceItem.quantity fst snd].
  rewrite loaded_product_find.
  destruct (find_key_some Df.StockCode (Df.StockCode r) df
              (in_map _ _ _ Hr)) as [r0 F].
  rewrite F. reflexivity.
Qed.

(** The same rows as the frame has them. *)
Lemma rows_joined_stored k :
  Permutation (rows_joined_for df k) (rows_stored_for df k).
Proof.
  unfold rows_joined_for, rows_stored_for.
  eapply Permutation_trans.
  - apply rows_by_key. apply NoDup_filter, drop_duplicates_nodup.
  - rewrite (filter_ext_in _
               (fun r => first_customer df (Df.InvoiceNo r) =?= k));
      [apply Permutation_refl|].
    intros r Hr.
    destruct (first_customer df (Df.InvoiceNo r) =?= k) eqn:E.
    + apply existsb_keqb, filter_In. split; [|exact E].
      apply drop_duplicates_in. now apply in_map.
    + destruct (existsb _ _) eqn:E'; [|reflexivity].
      apply existsb_keqb, filter_In in E'. destruct E' as [_ E'].
      congruence.
Qed.

(** With one price per stock code the stored price of a row is its own. *)
Lemma stored_amount_total_price csv r :
  single_priced (dropna csv) -> In r (dropna csv) ->
  stored_amount (dropna csv) r = Df.TotalPrice r.
Proof.
  intros Hp Hr. unfold stored_amount, first_unit_price.
  destruct (find_key_some Df.StockCode (Df.StockCode r) (dropna csv)
              (in_map _ _ _ Hr)) as [r0 F].
  rewrite F. apply find_some in F. destruct F as [H0 E0].
  apply keqb_eq in E0.
  rewrite (Hp r0 r H0 Hr E0). symmetry.
  exact (dropna_total_price csv r Hr).
Qed.

End LoadedAmounts.

Lemma rows_stored_of_customer df k :
  single_customer df -> rows_stored_for df k = rows_of_customer df k.
Proof.
  intros Hc. unfold rows_stored_for, rows_of_customer.
  apply filter_ext_in. intros r Hr. unfold first_customer.
  destruct (find_key_some Df.InvoiceNo (Df.InvoiceNo r) df
              (in_map _ _ _ Hr)) as [r0 F].
  rewrite F. apply find_some in F. destruct F as [H0 E0].
  apply keqb_eq in E0. now rewrite (Hc r0 r H0 Hr E0).
Qed.

(** ** When the loops fail *)

Section Failures.



Lemma for_each_insert_invoice_item_outcome xs : forall db,
  (exists db', for_each insert_invoice_item xs db = Done db')
  <-> (forall row, In row xs -> item_accepted db row).
Proof.
  induction xs as [|x xs IH]; intros db.
  - split; [intros _ row []|simpl; eauto].
  - cbn [for_each]. unfold insert_invoice_item at 1.
    destruct (has_key Invoice.invoice_no _ (invoices db)) eqn:E1;
      [destruct (has_key Product.stock_code _ (products db)) eqn:E2|];
      cbn [andb bind].
    + rewrite IH. apply has_key_in in E1, E2. unfold item_accepted.
      cbn [invoices products]. split.
      * intros Hall row [<-|Hr]; auto.
      * intros Hall row Hr. apply Hall. now right.
    + split; [intros [? ?]; discriminate|].
      intros Hall. apply has_key_not_in in E2.
      destruct (Hall x (or_introl eq_refl)) as [_ H2]. contradiction.
    + split; [intros [? ?]; discriminate|].
      intros Hall. apply has_key_not_in in E1.
      destruct (Hall x (or_introl eq_refl)) as [H1 _]. contradiction.
Qed.

End Failures.

(** ** More on the groups and the result *)

Section Groups.

Lemma MAX_in l : l <> [] -> In (MAX l) l.
Proof.
  destruct l as [|x xs]; [congruence|]. intros _. unfold MAX.
  revert x. induction xs as [|y ys IH]; intros x; simpl; [now left|].
  destruct (IH (Z.max x y)) as [E|Hin].
  - destruct (Z.max_spec x y) as [[_ Em]|[_ Em]]; rewrite Em in *; auto.
  - auto.
Qed.

Lemma MAX_upper l x : In x l -> x <= MAX l.
Proof.
  destruct l as [|y ys]; [contradiction|]. unfold MAX.
  assert (G : forall ys a, a <= fold_left Z.max ys a
                           /\ forall z, In z ys -> z <= fold_left Z.max ys a).
  { induction ys0 as [|b ys0 IH]; intros a; simpl.
    - split; [lia|]. intros z [].
    - destruct (IH (Z.max a b)) as [H1 H2]. split; [lia|].
      intros z [<-|Hz]; [lia|auto]. }
  destruct (G ys y) as [H1 H2]. intros [<-|Hx]; auto.
Qed.

Lemma days_since_antitone current_date t1 t2 :
  t1 <= t2 -> days_since current_date t2 <= days_since current_date t1.
Proof.
  intros Hle. unfold days_since. apply Z.quot_le_mono; lia.
Qed.

Variable db : database.

(** What the group of a customer shows of its invoices is taken from the
    invoices stored for the customer. *)
Lemma group_invoices_incl {V} (f : Invoice.row -> V) k v :
  In v (map (fun j => f (Joined.i j)) (group k (from_clause db))) ->
  In v (map f (invoices_of db k)).
Proof.
  unfold group, invoices_of. rewrite !in_map_iff.
  intros (j & <- & Hj). apply filter_In in Hj. destruct Hj as [Hj Ek].
  apply keqb_eq in Ek. apply from_clause_in in Hj.
  destruct Hj as (_ & Hi & _ & _ & Ei & _).
  exists (Joined.i j). split; [reflexivity|].
  apply filter_In. split; [assumption|]. apply keqb_eq.
  unfold group_key in Ek. congruence.
Qed.

Lemma group_nonempty k :
  In k (map group_key (from_clause db)) -> group k (from_clause db) <> [].
Proof.
  intros Hk. apply in_map_iff in Hk. destruct Hk as (j & Ej & Hj).
  assert (Hin : In j (group k (from_clause db))).
  { apply filter_In. split; [assumption|]. now apply keqb_eq. }
  intros E. rewrite E in Hin. contradiction.
Qed.

Hypothesis refs : referential_integrity db.
Hypothesis items : itemized db.

(** With every invoice itemized, nothing of them is lost in the group. *)
Lemma group_invoices {V} (f : Invoice.row -> V) k v :
  In v (map (fun j => f (Joined.i j)) (group k (from_clause db)))
  <-> In v (map f (invoices_of db k)).
Proof.
  split; [apply group_invoices_incl|].
  unfold group, invoices_of. rewrite !in_map_iff.
  intros (i & <- & Hi). apply filter_In in Hi. destruct Hi as [Hi Ek].
  apply keqb_eq in Ek. destruct refs as [Rc Ri].
  pose proof (Rc i Hi) as Hc. apply in_map_iff in Hc.
  destruct Hc as (c & Ec & Hc).
  destruct (items i Hi) as (ii & Hii & Eii).
  destruct (Ri ii Hii) as [_ Hp]. apply in_map_iff in Hp.
  destruct Hp as (p & Ep & Hp).
  exists {| Joined.c := c; Joined.i := i; Joined.ii := ii; Joined.p := p |}.
  split; [reflexivity|]. apply filter_In. split.
  - apply from_clause_in. simpl. repeat split; auto.
  - apply keqb_eq. unfold group_key. simpl. congruence.
Qed.

Lemma reachable_iff_invoice k :
  reachable db k <-> exists i, In i (invoices db) /\ Invoice.customer_id i = k.
Proof.
  split.
  - intros (c & i & ii & p & _ & Hi & _ & _ & _ & Ei & _). eauto.
  - intros (i & Hi & Ei). destruct refs as [Rc Ri].
    pose proof (Rc i Hi) as Hc. apply in_map_iff in Hc.
    destruct Hc as (c & Ec & Hc).
    destruct (items i Hi) as (ii & Hii & Eii).
    destruct (Ri ii Hii) as [_ Hp]. apply in_map_iff in Hp.
    destruct Hp as (p & Ep & Hp).
    exists c, i, ii, p. repeat split; auto; congruence.
Qed.

End Groups.

Section LoadedResult.

Variable df : list Df.row.

(** The customers of the stored invoices, in terms of the frame. *)
Lemma loaded_invoice_customers k :
  (exists i, In i (invoices (loaded df)) /\ Invoice.customer_id i = k)
  <-> (exists r, In r df /\ first_customer df (Df.InvoiceNo r) = k).
Proof.
  destruct (loaded_primary_keys df) as (_ & _ & NDi).
  unfold first_customer. split.
  - intros (i & Hi & Ei).
    pose proof (find_in_nodup Invoice.invoice_no i _ NDi Hi) as F.
    rewrite loaded_invoice_find in F.
    destruct (find (fun r => Df.InvoiceNo r =?= Invoice.invoice_no i) df)
      as [r0|] eqn:F0; [|discriminate].
    injection F as F. apply find_some in F0 as F1. destruct F1 as [H0 E0].
    apply keqb_eq in E0. exists r0. split; [assumption|].
    rewrite E0, F0. rewrite <- Ei, <- F. reflexivity.
  - intros (r & Hr & Ek).
    destruct (find_key_some Df.InvoiceNo (Df.InvoiceNo r) df
                (in_map _ _ _ Hr)) as [r1 F1].
    rewrite F1 in Ek.
    pose proof (loaded_invoice_find df (Df.InvoiceNo r)) as F.
    rewrite F1 in F. cbn [option_map] in F. apply find_some in F.
    destruct F as [Hi _]. eexists. split; [exact Hi|]. exact Ek.
Qed.

Variable current_date : Z.

Lemma loaded_result_member k :
  In k (map RfmSegmentation.customer_id
            (rfm_segmentation current_date (loaded df)))
  <-> (exists r, In r df /\ first_customer df (Df.InvoiceNo r) = k).
Proof.
  rewrite rfm_segmentation_member.
  rewrite (reachable_iff_invoice _ (loaded_referential_integrity df)
             (loaded_itemized df)).
  apply loaded_invoice_customers.
Qed.

Lemma loaded_result_incl :
  incl (map RfmSegmentation.customer_id
            (rfm_segmentation current_date (loaded df)))
       (map Customer.customer_id (customers (loaded df))).
Proof.
  intros k Hk. apply rfm_segmentation_member in Hk.
  destruct Hk as (c & _ & _ & _ & Hc & _ & _ & _ & Ec & _).
  rewrite <- Ec. now apply in_map.
Qed.

End LoadedResult.

(** ** Totals over the result *)

Section Totals.

Lemma length_filter_total {X} (P : X -> bool) l :
  Z.of_nat (List.length (filter P l))
  = total (map (fun x => if P x then 1 else 0) l).
Proof.
  unfold total. induction l as [|x l IH]; [reflexivity|].
  cbn [filter map fold_right]. destruct (P x); cbn [List.length];
    rewrite ?Nat2Z.inj_succ; lia.
Qed.

Lemma total_ones {X} (l : list X) :
  total (map (fun _ => 1) l) = Z.of_nat (List.length l).
Proof.
  unfold total. induction l as [|x l IH]; [reflexivity|].
  cbn [map fold_right List.length]. rewrite Nat2Z.inj_succ. lia.
Qed.

(** Among distinct keys, exactly one is the given one. *)
Lemma total_one_key (keys : list Z) (g v : Z) :
  NoDup keys -> In g keys ->
  total (map (fun k => if g =?= k then v else 0) keys) = v.
Proof.
  intros ND Hg.
  rewrite (sigma_ext _ (fun k => if k =?= g then v else 0))
    by (intros k _; now rewrite keqb_sym).
  rewrite (sigma_unique (fun k : Z => k) (fun _ => v) g keys)
    by (now rewrite map_id).
  destruct (find_key_some (fun k : Z => k) g keys) as [k F];
    [now rewrite map_id|].
  now rewrite F.
Qed.

Variable df : list Df.row.
Variable current_date : Z.

Let out := rfm_segmentation current_date (loaded df).
Let keys := map RfmSegmentation.customer_id out.

Lemma loaded_frequency_total :
  total (map RfmSegmentation.frequency out)
  = Z.of_nat (List.length (invoices (loaded df))).
Proof.
  transitivity
    (total (map (fun k => Z.of_nat (List.length (invoices_of (loaded df) k)))
              keys)).
  - unfold keys. rewrite map_map. apply sigma_ext. intros rec Hrec.
    destruct (rfm_segmentation_metrics _ current_date rec Hrec)
      as (_ & _ & Ef & _).
    rewrite Ef. apply frequency_by_invoices.
    + apply loaded_primary_keys.
    + apply loaded_referential_integrity.
    + apply loaded_itemized.
  - unfold invoices_of.
    rewrite (sigma_ext _ (fun k =>
               total (map (fun i => if Invoice.customer_id i =?= k then 1 else 0)
                        (invoices (loaded df)))))
      by (intros k _; apply length_filter_total).
    rewrite sigma_swap, <- total_ones. apply sigma_ext. intros i Hi.
    apply total_one_key.
    + apply rfm_segmentation_one_row_each.
    + apply rfm_segmentation_member.
      apply (reachable_iff_invoice _ (loaded_referential_integrity df)
               (loaded_itemized df)).
      eauto.
Qed.

End Totals.

(** ** From buckets to the result *)

Section Result.

Variable rows : list Rfm.row.

Let out := select_segmentation (rfm_scores (rfm_ntile rows)).

(** The row of the result made from a row of [rfm_ntile]. *)
Lemma result_from_ntile rec :
  In rec out ->
  exists nt, In nt (rfm_ntile rows)
    /\ RfmSegmentation.customer_id rec = RfmNtile.customer_id nt
    /\ RfmSegmentation.recency rec = RfmNtile.recency nt
    /\ RfmSegmentation.frequency rec = RfmNtile.frequency nt
    /\ RfmSegmentation.monetary rec = RfmNtile.monetary nt
    /\ RfmSegmentation.r_score rec = 6 - RfmNtile.r_ntile nt
    /\ RfmSegmentation.f_score rec = 6 - RfmNtile.f_ntile nt
    /\ RfmSegmentation.m_score rec = 6 - RfmNtile.m_ntile nt.
Proof.
  unfold out, select_segmentation, rfm_scores. rewrite map_map, in_map_iff.
  intros (nt & <- & Hnt). exists nt. cbn. repeat split; auto.
Qed.

Lemma result_of_ntile nt :
  In nt (rfm_ntile rows) ->
  exists rec, In rec out
    /\ RfmSegmentation.r_score rec = 6 - RfmNtile.r_ntile nt
    /\ RfmSegmentation.f_score rec = 6 - RfmNtile.f_ntile nt
    /\ RfmSegmentation.m_score rec = 6 - RfmNtile.m_ntile nt.
Proof.
  intros Hnt. unfold out, select_segmentation, rfm_scores. rewrite map_map.
  eexists. split; [apply in_map; exact Hnt|]. cbn. auto.
Qed.

Lemma result_length : List.length out = List.length rows.
Proof.
  unfold out, select_segmentation, rfm_scores.
  now rewrite !length_map, rfm_ntile_length.
Qed.

Lemma result_scores_range rec :
  In rec out ->
  1 <= RfmSegmentation.r_score rec <= 5
  /\ 1 <= RfmSegmentation.f_score rec <= 5
  /\ 1 <= RfmSegmentation.m_score rec <= 5.
Proof.
  intros Hrec.
  destruct (result_from_ntile rec Hrec)
    as (nt & Hnt & _ & _ & _ & _ & Er & Ef & Em).
  destruct (rfm_ntile_partition rows) as ((Hr & _) & (Hf & _) & (Hm & _)).
  specialize (Hr nt Hnt). specialize (Hf nt Hnt). specialize (Hm nt Hnt).
  lia.
Qed.

Lemma result_segment rec :
  In rec out ->
  RfmSegmentation.segment rec
  = segment_case (RfmSegmentation.r_score rec) (RfmSegmentation.f_score rec)
      (RfmSegmentation.m_score rec)
  /\ RfmSegmentation.rfm_score rec
     = (text (RfmSegmentation.r_score rec)
        ++ text (RfmSegmentation.f_score rec)
        ++ text (RfmSegmentation.m_score rec))%string.
Proof.
  unfold out, select_segmentation. rewrite in_map_iff.
  intros (x & <- & _). cbn. auto.
Qed.

End Result.

Section Quintile.

Context {X : Type} (bucket : X -> Z) (rowsX : list X).
Hypothesis part : quintile_partition bucket rowsX.

Lemma count_occ_filter b :
  rows_in_bucket bucket b rowsX
  = List.length (filter (fun x => bucket x =? b) rowsX).
Proof.
  unfold rows_in_bucket. clear part.
  induction rowsX as [|x l IH]; [reflexivity|].
  cbn [map count_occ filter].
  destruct (Z.eq_dec (bucket x) b) as [E|E].
  - rewrite (proj2 (Z.eqb_eq _ _) E). cbn [List.length]. now rewrite IH.
  - rewrite (proj2 (Z.eqb_neq _ _) E). exact IH.
Qed.

(** With fewer than five rows the buckets beyond the row count stay
    empty. *)
Lemma quintile_small x :
  (List.length rowsX < 5)%nat -> In x rowsX ->
  bucket x <= Z.of_nat (List.length rowsX).
Proof.
  intros Hlt Hx. destruct part as (Hrange & Hsize & _).
  specialize (Hrange x Hx).
  destruct (Z_le_gt_dec (bucket x) (Z.of_nat (List.length rowsX)))
    as [Hle|Hgt]; [exact Hle|exfalso].
  set (b := Z.to_nat (bucket x)).
  assert (Hb : (1 <= b <= 5)%nat) by (unfold b; lia).
  specialize (Hsize b Hb). cbv zeta in Hsize.
  rewrite Nat.div_small, Nat.mod_small in Hsize by lia.
  destruct (Nat.leb_spec b (List.length rowsX)) as [Hbl|_]; [unfold b in Hbl; lia|].
  assert (Hin : In (Z.of_nat b) (map bucket rowsX)).
  { unfold b. rewrite Z2Nat.id by lia. now apply in_map. }
  apply (count_occ_In Z.eq_dec) in Hin.
  unfold rows_in_bucket in Hsize. simpl in Hsize. lia.
Qed.

(** With five rows or more every bucket has a row. *)
Lemma quintile_large b :
  (5 <= List.length rowsX)%nat -> 1 <= b <= 5 ->
  exists x, In x rowsX /\ bucket x = b.
Proof.
  intros Hge Hb. destruct part as (_ & Hsize & _).
  specialize (Hsize (Z.to_nat b) ltac:(lia)). cbv zeta in Hsize.
  rewrite Z2Nat.id in Hsize by lia.
  assert (Hq : (1 <= List.length rowsX / 5)%nat)
    by (apply Nat.div_le_lower_bound; lia).
  assert (Hpos : (count_occ Z.eq_dec (map bucket rowsX) b > 0)%nat)
    by (unfold rows_in_bucket in Hsize; lia).
  apply (count_occ_In Z.eq_dec) in Hpos. apply in_map_iff in Hpos.
  destruct Hpos as (x & E & Hx). eauto.
Qed.

(** The first bucket has the ceiling, the last the floor of a fifth. *)
Lemma quintile_first_last :
  (rows_in_bucket bucket 1 rowsX <= (List.length rowsX + 4) / 5)%nat
  /\ (rows_in_bucket bucket 5 rowsX = List.length rowsX / 5)%nat.
Proof.
  destruct part as (_ & Hsize & Hfc & _). split.
  - destruct (Hfc 1%nat ltac:(lia)) as [E|E]; cbv zeta in E;
      change (Z.of_nat 1) with 1 in E; rewrite E; [|lia].
    apply Nat.Div0.div_le_mono; lia.
  - specialize (Hsize 5%nat ltac:(lia)). cbv zeta in Hsize.
    change (Z.of_nat 5) with 5 in Hsize. rewrite Hsize.
    assert (Hr : (List.length rowsX mod 5 < 5)%nat)
      by (apply Nat.mod_upper_bound; lia).
    destruct (Nat.leb_spec 5 (List.length rowsX mod 5)); lia.
Qed.

End Quintile.

Lemma filter_length_le {X} (P Q : X -> bool) l :
  (forall x, In x l -> P x = true -> Q x = true) ->
  (List.length (filter P l) <= List.length (filter Q l))%nat.
Proof.
  induction l as [|x l IH]; intros H; [reflexivity|].
  cbn [filter].
  assert (IH' := IH (fun y Hy => H y (or_intror Hy))).
  destruct (P x) eqn:EP.
  - rewrite (H x (or_introl eq_refl) EP). cbn [List.length]. lia.
  - destruct (Q x); cbn [List.length]; lia.
Qed.

Lemma filter_map_length {X Y} (P : Y -> bool) (g : X -> Y) l :
  List.length (filter P (map g l))
  = List.length (filter (fun x => P (g x)) l).
Proof.
  induction l as [|x l IH]; [reflexivity|].
  cbn [map filter]. destruct (P (g x)); cbn [List.length]; now rewrite IH.
Qed.

Lemma text_digit z : 1 <= z <= 5 -> text z = String (digit z) EmptyString.
Proof.
  intros Hz.
  assert (E : z = 1 \/ z = 2 \/ z = 3 \/ z = 4 \/ z = 5) by lia.
  destruct E as [->|[->|[->|[->| ->]]]]; reflexivity.
Qed.

Lemma score_of_digit_digit z : 1 <= z <= 5 -> score_of_digit (digit z) = z.
Proof.
  intros Hz.
  assert (E : z = 1 \/ z = 2 \/ z = 3 \/ z = 4 \/ z = 5) by lia.
  destruct E as [->|[->|[->|[->| ->]]]]; reflexivity.
Qed.

Lemma Segment_eqb_eq s t : Segment_eqb s t = true <-> s = t.
Proof. destruct s, t; simpl; split; congruence. Qed.

(** ** Files without a complete record *)

Lemma dropna_nil_iff csv : dropna csv = [] <-> forall r, In r csv -> incomplete r.
Proof.
  induction csv as [|x csv IH]; simpl.
  - split; [intros _ r []|reflexivity].
  - destruct (clean x) as [x'|] eqn:E.
    + split; [discriminate|]. intros Hall.
      rewrite (clean_incomplete x (Hall x (or_introl eq_refl))) in E.
      discriminate.
    + rewrite IH. split.
      * intros Hall r [<-|Hr]; [|auto].
        unfold incomplete. unfold clean in E.
        destruct (Csv.CustomerID x); [|now left].
        destruct (Csv.Description x); [discriminate|now right].
      * intros Hall r Hr. apply Hall. now right.
Qed.
(** * The properties of the design document *)

(** C1.  The segment of every row of [rfm_segmentation] is given by the
    first rule that matches its scores, in the order Champions (all three
    scores 5), Loyal Customers (r_score >= 4 and f_score >= 4), Big Spenders
    (m_score = 5), Lost (r_score = 1), and Others when none matches; so
    scores (5,5,5) give Champions and not Loyal Customers. *)
Theorem segment_first_match (current_date : Z) (db : database)
    (rec : RfmSegmentation.row) :
  In rec (rfm_segmentation current_date db) ->
  let r := RfmSegmentation.r_score rec in
  let f := RfmSegmentation.f_score rec in
  let m := RfmSegmentation.m_score rec in
  first_match r f m (RfmSegmentation.segment rec)
  /\ ((r, f, m) = (5, 5, 5) ->
      RfmSegmentation.segment rec = Champions
      /\ RfmSegmentation.segment rec <> Loyal_Customers).
Proof.
  intros Hin r f m.
  apply select_segmentation_in in Hin. fold r f m in Hin.
  rewrite Hin. split; [apply segment_case_first_match|].
  intros E. injection E as Er Ef Em. rewrite Er, Ef, Em.
  split; [reflexivity|discriminate].
Qed.

Lemma segment_first_match_witness :
  In one_customer_row (rfm_segmentation 10 one_customer_db)
  /\ RfmSegmentation.segment one_customer_row = Champions
  /\ RfmSegmentation.segment one_customer_row <> Loyal_Customers.
Proof.
  assert (Hin : In one_customer_row (rfm_segmentation 10 one_customer_db))
    by (vm_compute; left; reflexivity).
  split; [exact Hin|].
  apply (segment_first_match 10 one_customer_db one_customer_row Hin).
  reflexivity.
Defined.

(** C2.  Row by row, [rfm_segmentation] carries for each of the three
    dimensions the score 6 - bucket of the bucket that [rfm_ntile] gave the
    customer: score + bucket = 6, both lie in 1..5, bucket 1 is score 5 and
    bucket 5 is score 1. *)
Theorem score_inversion (current_date : Z) (db : database) :
  Forall2
    (fun (nt : RfmNtile.row) (rec : RfmSegmentation.row) =>
       RfmSegmentation.customer_id rec = RfmNtile.customer_id nt
       /\ inverted (RfmNtile.r_ntile nt) (RfmSegmentation.r_score rec)
       /\ inverted (RfmNtile.f_ntile nt) (RfmSegmentation.f_score rec)
       /\ inverted (RfmNtile.m_ntile nt) (RfmSegmentation.m_score rec))
    (rfm_ntile (rfm current_date db))
    (rfm_segmentation current_date db).
Proof.
  unfold rfm_segmentation, select_segmentation, rfm_scores.
  rewrite map_map. apply Forall2_map_self. intros nt Hnt.
  cbn [RfmSegmentation.customer_id RfmSegmentation.r_score
       RfmSegmentation.f_score RfmSegmentation.m_score
       RfmScores.customer_id RfmScores.r_score RfmScores.f_score
       RfmScores.m_score].
  destruct (rfm_ntile_partition (rfm current_date db))
    as ((Hr & _) & (Hf & _) & (Hm & _)).
  specialize (Hr nt Hnt). specialize (Hf nt Hnt). specialize (Hm nt Hnt).
  unfold inverted. repeat split; lia.
Qed.

(** C3.  Along each of the three orderings (recency ascending, frequency
    descending, monetary descending) [NTILE(5)] puts every row of [rfm]
    into one of the buckets 1 to 5; with N rows, bucket b holds N/5 rows,
    and one more when b <= N mod 5, so every bucket has the floor or the
    ceiling of N/5 rows, the five sizes add up to N and the earlier buckets
    are the larger ones; a row in a lower bucket is not after a row in a
    higher bucket in the ordering, monetary values being compared as
    doubles. *)
Theorem rfm_ntile_quintiles (rows : list Rfm.row) :
  let out := rfm_ntile rows in
  List.length out = List.length rows
  /\ quintile_partition RfmNtile.r_ntile out
  /\ quintile_partition RfmNtile.f_ntile out
  /\ quintile_partition RfmNtile.m_ntile out
  /\ (forall x y, In x out -> In y out ->
        (RfmNtile.r_ntile x < RfmNtile.r_ntile y ->
         RfmNtile.recency x <= RfmNtile.recency y)
        /\ (RfmNtile.f_ntile x < RfmNtile.f_ntile y ->
            RfmNtile.frequency y <= RfmNtile.frequency x)
        /\ (RfmNtile.m_ntile x < RfmNtile.m_ntile y ->
            float8_le (RfmNtile.monetary y) (RfmNtile.monetary x) = true)).
Proof.
  intros out. subst out.
  split; [apply rfm_ntile_length|].
  destruct (rfm_ntile_partition rows) as (Hr & Hf & Hm).
  repeat (split; [assumption|]).
  apply rfm_ntile_order.
Qed.

Lemma rfm_ntile_quintiles_witness :
  rows_in_bucket RfmNtile.r_ntile 1 (rfm_ntile seven_customers) = 2%nat
  /\ rows_in_bucket RfmNtile.r_ntile 2 (rfm_ntile seven_customers) = 2%nat
  /\ rows_in_bucket RfmNtile.r_ntile 3 (rfm_ntile seven_customers) = 1%nat.
Proof.
  destruct (rfm_ntile_quintiles seven_customers)
    as (_ & (_ & Hsize & _) & _).
  split; [|split].
  - exact (Hsize 1%nat ltac:(lia)).
  - exact (Hsize 2%nat ltac:(lia)).
  - exact (Hsize 3%nat ltac:(lia)).
Defined.

(** C4, as amended.  For every row of the result, [monetary] is the
    double precision sum, taken from left to right in the order in which
    the join delivers them, of the amounts of the rows of the cleaned frame
    whose invoice number is stored for the customer; the amount of a row is
    the double precision product of its quantity and the unit price stored
    for its stock code; stored are the customer and the unit price of the
    first row with that invoice number or stock code.  When every stock
    code has one unit price, the amounts are the [TotalPrice] of the rows;
    when every invoice number has one customer, the rows are the rows of
    the customer. *)
Theorem monetary_stored_prices (current_date : Z) (csv : list Csv.row)
    (out : list RfmSegmentation.row) (rec : RfmSegmentation.row) :
  main current_date csv = Done out ->
  In rec out ->
  let df := dropna csv in
  let k := RfmSegmentation.customer_id rec in
  exists rows,
    Permutation rows (rows_stored_for df k)
    /\ RfmSegmentation.monetary rec = SUM (map (stored_amount df) rows)
    /\ (single_priced df ->
        RfmSegmentation.monetary rec = SUM (map Df.TotalPrice rows))
    /\ (single_customer df -> Permutation rows (rows_of_customer df k)).
Proof.
  intros Hmain Hrec df k.
  apply main_done in Hmain. subst out.
  destruct (rfm_segmentation_metrics _ current_date rec Hrec)
    as (Hk & _ & _ & Em).
  assert (Hc : In k (map Customer.customer_id (customers (loaded df)))).
  { apply in_map_iff in Hk. destruct Hk as (j & E & Hj).
    apply from_clause_in in Hj. unfold k. rewrite <- E. unfold group_key.
    apply in_map. tauto. }
  pose proof (rows_joined_stored df k) as P.
  assert (E : RfmSegmentation.monetary rec
              = SUM (map (stored_amount df) (rows_joined_for df k)))
    by (rewrite Em; f_equal; now apply loaded_amounts).
  exists (rows_joined_for df k).
  split; [exact P|]. split; [exact E|]. split.
  - intros Hp. rewrite E. f_equal. apply map_ext_in. intros r Hr.
    apply stored_amount_total_price; [exact Hp|].
    apply (Permutation_in _ P) in Hr. apply filter_In in Hr. tauto.
  - intros Hs. now rewrite <- (rows_stored_of_customer df k Hs).
Qed.

Lemma monetary_stored_prices_witness :
  main 10 price_change_csv = Done [price_change_row]
  /\ exists rows,
       Permutation rows (rows_stored_for (dropna price_change_csv) 100)
       /\ RfmSegmentation.monetary price_change_row
          = SUM (map (stored_amount (dropna price_change_csv)) rows).
Proof.
  assert (H1 : main 10 price_change_csv = Done [price_change_row])
    by reflexivity.
  split; [exact H1|].
  destruct (monetary_stored_prices 10 price_change_csv [price_change_row]
              price_change_row H1 (or_introl eq_refl))
    as (rows & P & E & _).
  exists rows. split; [exact P|exact E].
Defined.

(** C4, as stated, fails: with one product sold to one customer at the
    prices 1 and 2, the line totals of the two rows add up to 3 in either
    order, and [monetary] is 2. *)
Lemma monetary_line_totals_counterexample :
  ~ (forall current_date csv out rec,
       main current_date csv = Done out -> In rec out ->
       exists rows,
         Permutation rows
           (rows_of_customer (dropna csv) (RfmSegmentation.customer_id rec))
         /\ RfmSegmentation.monetary rec = SUM (map Df.TotalPrice rows)).
Proof.
  intros H.
  destruct (H 10 price_change_csv [price_change_row] price_change_row
              eq_refl (or_introl eq_refl)) as (rows & P & E).
  apply Permutation_sym, Permutation_length_2_inv in P.
  destruct P as [-> | ->]; vm_compute in E; discriminate.
Qed.

(** C5.  A record of the file without customer identifier or without
    description leaves no trace: the cleaned frame, and with it the four
    frames, the load and the result, are the same with the record and
    without it.  Every other record is in all four frames: the customer
    frame has its (customer, country), the product frame its (stock code,
    description, unit price), the invoice frame its (invoice number, date,
    customer) and the item frame its (invoice number, stock code,
    quantity); and each row of the four frames comes from such a record. *)
Theorem completeness_filter (before after : list Csv.row) (r : Csv.row) :
  let csv := before ++ r :: after in
  let df := dropna csv in
  (incomplete r ->
     df = dropna (before ++ after)
     /\ load csv = load (before ++ after)
     /\ forall current_date,
          main current_date csv = main current_date (before ++ after))
  /\ (forall c d, Csv.CustomerID r = Some c -> Csv.Description r = Some d ->
        In (c, Csv.Country r) (customers_frame df)
        /\ In (Csv.StockCode r, (d, Csv.UnitPrice r)) (products_frame df)
        /\ In (Csv.InvoiceNo r, (Csv.InvoiceDate r, c)) (invoices_frame df)
        /\ In (Csv.InvoiceNo r, (Csv.StockCode r, Csv.Quantity r))
              (invoice_items_frame df))
  /\ (forall r', In r' df ->
        exists r0, In r0 csv /\ ~ incomplete r0 /\ clean r0 = Some r')
  /\ List.length (invoice_items_frame df) = List.length df.
Proof.
  intros csv df. subst csv df. split; [|split; [|split]].
  - intros Hr.
    assert (E : dropna (before ++ r :: after) = dropna (before ++ after)).
    { rewrite !dropna_app. simpl. now rewrite (clean_incomplete r Hr). }
    split; [exact E|]. unfold main, load. rewrite E. auto.
  - intros c d Hc Hd.
    assert (Hin : exists r', In r' (dropna (before ++ r :: after))
                             /\ clean r = Some r').
    { unfold clean. rewrite Hc, Hd. eexists. split; [|reflexivity].
      apply dropna_in. exists r. split; [apply in_elt|].
      unfold clean. now rewrite Hc, Hd. }
    destruct Hin as (r' & Hin & Hr').
    apply clean_some in Hr'.
    destruct Hr' as (E1 & E2 & E3 & E4 & E5 & E6 & E7 & E8 & _).
    rewrite Hc in E1. rewrite Hd in E2. inversion E1. inversion E2.
    rewrite <- E3, <- E4, <- E5, <- E6, <- E7, <- E8.
    unfold customers_frame, products_frame, invoices_frame,
      invoice_items_frame.
    rewrite !drop_duplicates_in.
    repeat split;
      match goal with
      | |- In _ (map ?f _) => apply (in_map f _ _ Hin)
      end.
  - intros r' Hr'. apply dropna_in in Hr'. destruct Hr' as (r0 & H0 & E0).
    exists r0. split; [assumption|]. split; [|assumption].
    intros Hinc. rewrite (clean_incomplete r0 Hinc) in E0. discriminate.
  - unfold invoice_items_frame. apply length_map.
Qed.

Lemma completeness_filter_witness :
  incomplete no_description
  /\ dropna two_price_csv = dropna [pen_at_1; pen_at_2; shared_invoice]
  /\ In (102, "FR"%string) (customers_frame (dropna two_price_csv)).
Proof.
  assert (H : incomplete no_description) by (right; reflexivity).
  split; [exact H|]. split.
  - exact (proj1 (proj1 (completeness_filter [pen_at_1; pen_at_2]
                           [shared_invoice] no_description) H)).
  - exact (proj1 (proj1 (proj2 (completeness_filter
                                  [pen_at_1; pen_at_2; no_description] []
                                  shared_invoice))
                    102 "ink"%string eq_refl eq_refl)).
Defined.

(** C6.  For every row of the result, [frequency] is the number of
    distinct invoice numbers among the invoices stored for the customer,
    which is the number of those invoices.  It does not depend on the item
    rows: with any other content of [invoice_items] that keeps at least one
    item per invoice and resolves its references, repeated rows included,
    the customer gets the same frequency. *)
Theorem frequency_counts_invoices (current_date : Z) (csv : list Csv.row)
    (db : database) (rec : RfmSegmentation.row) :
  load csv = Done db ->
  In rec (rfm_segmentation current_date db) ->
  let k := RfmSegmentation.customer_id rec in
  RfmSegmentation.frequency rec
  = COUNT_DISTINCT (map Invoice.invoice_no (invoices_of db k))
  /\ RfmSegmentation.frequency rec = Z.of_nat (List.length (invoices_of db k))
  /\ (forall items rec',
        let db' := with_invoice_items db items in
        referential_integrity db' -> itemized db' ->
        In rec' (rfm_segmentation current_date db') ->
        RfmSegmentation.customer_id rec' = k ->
        RfmSegmentation.frequency rec' = RfmSegmentation.frequency rec).
Proof.
  intros Hload Hrec k.
  unfold load in Hload. rewrite load_into_created in Hload.
  injection Hload as <-.
  set (db := loaded (dropna csv)) in *.
  assert (Hk : primary_keys db) by apply loaded_primary_keys.
  assert (Hf : RfmSegmentation.frequency rec
               = Z.of_nat (List.length (invoices_of db k))).
  { destruct (rfm_segmentation_metrics db current_date rec Hrec)
      as (_ & _ & Ef & _).
    rewrite Ef. apply frequency_by_invoices; auto.
    - apply loaded_referential_integrity.
    - apply loaded_itemized. }
  split; [|split; [exact Hf|]].
  - rewrite Hf, count_distinct_nodup by now apply invoices_of_nodup.
    now rewrite length_map.
  - intros items rec' db' Hrefs Hitems Hrec' Ek.
    destruct (rfm_segmentation_metrics db' current_date rec' Hrec')
      as (_ & _ & Ef & _).
    rewrite Ef, Ek, Hf.
    apply (frequency_by_invoices db' Hk Hrefs Hitems k).
Qed.

Lemma frequency_counts_invoices_witness :
  load two_price_csv = Done two_price_db
  /\ In shared_invoice_row (rfm_segmentation 10 two_price_db)
  /\ RfmSegmentation.frequency shared_invoice_row = 1.
Proof.
  assert (H1 : load two_price_csv = Done two_price_db) by reflexivity.
  assert (H2 : In shared_invoice_row (rfm_segmentation 10 two_price_db))
    by (vm_compute; left; reflexivity).
  split; [exact H1|]. split; [exact H2|].
  exact (proj1 (proj2 (frequency_counts_invoices 10 two_price_csv
                         two_price_db shared_invoice_row H1 H2))).
Defined.

(** C7.  The customer, product and invoice statements insert only when the
    primary key is absent: on a key that is already stored they leave the
    store as it is and do not fail (for an invoice, whatever customer it
    names).  So when steps 4 to 6 have gone through for some frames, running
    them again on the result goes through and gives the same tables, and no
    primary key is stored twice. *)
Theorem load_idempotent (cs : list (Z * string))
    (ps : list (string * (string * float8))) (invs : list (string * (Z * Z)))
    (db : database) :
  (forall row, In (fst row) (map Customer.customer_id (customers db)) ->
     insert_customer row db = Done db)
  /\ (forall row, In (fst row) (map Product.stock_code (products db)) ->
        insert_product row db = Done db)
  /\ (forall row, In (fst row) (map Invoice.invoice_no (invoices db)) ->
        insert_invoice row db = Done db)
  /\ (forall db1, load_entities cs ps invs db = Done db1 ->
        load_entities cs ps invs db1 = Done db1
        /\ (primary_keys db -> primary_keys db1)).
Proof.
  split; [|split; [|split]].
  - intros row. apply insert_customer_conflict.
  - intros row. apply insert_product_conflict.
  - intros row. apply insert_invoice_conflict.
  - intros db1 E. split.
    + exact (load_entities_again cs ps invs db db1 E).
    + exact (load_entities_primary_keys cs ps invs db db1 E).
Qed.

Lemma load_idempotent_witness :
  let cs := customers_frame (dropna two_price_csv) in
  let ps := products_frame (dropna two_price_csv) in
  let invs := invoices_frame (dropna two_price_csv) in
  load_entities cs ps invs created = Done two_price_entities
  /\ load_entities cs ps invs two_price_entities = Done two_price_entities
  /\ insert_invoice ("A1"%string, (5000, 999)) two_price_entities
     = Done two_price_entities.
Proof.
  intros cs ps invs.
  assert (E : load_entities cs ps invs created = Done two_price_entities)
    by reflexivity.
  split; [exact E|]. split.
  - exact (proj1 (proj2 (proj2 (proj2 (load_idempotent cs ps invs created)))
                    two_price_entities E)).
  - apply (proj1 (proj2 (proj2 (load_idempotent cs ps invs
                                  two_price_entities)))).
    simpl. auto.
Defined.

(** C8.  For every input file the load goes through: with the four loops
    in the order customers, products, invoices, invoice items, each over
    its projection of the same cleaned frame, no statement meets a missing
    reference, and in the tables that result every invoice names a stored
    customer and every item a stored invoice and a stored product. *)
Theorem load_resolves_references (csv : list Csv.row) :
  load csv = Done (loaded (dropna csv))
  /\ load csv <> ForeignKeyViolation
  /\ referential_integrity (loaded (dropna csv))
  /\ primary_keys (loaded (dropna csv)).
Proof.
  assert (E : load csv = Done (loaded (dropna csv)))
    by apply load_into_created.
  split; [exact E|]. split; [rewrite E; discriminate|].
  split; [apply loaded_referential_integrity|apply loaded_primary_keys].
Qed.





(** * Further properties of the script *)

(** X1.  After the load, each table lists its primary keys in the order in
    which they first appear in the cleaned frame, each once, and
    [invoice_items] has one row per row of the frame, in row order. *)
Theorem load_keeps_first_appearance (csv : list Csv.row) (db : database) :
  load csv = Done db ->
  let df := dropna csv in
  map Customer.customer_id (customers db)
  = drop_duplicates (map Df.CustomerID df)
  /\ map Product.stock_code (products db)
     = drop_duplicates (map Df.StockCode df)
  /\ map Invoice.invoice_no (invoices db)
     = drop_duplicates (map Df.InvoiceNo df)
  /\ invoice_items db = map invoice_item_of df.
Proof.
  intros Hload df. unfold load in Hload.
  rewrite load_into_created in Hload. injection Hload as <-.
  split; [apply loaded_customer_order|].
  split; [apply loaded_product_order|].
  split; [apply loaded_invoice_order|apply loaded_items].
Qed.

Lemma load_keeps_first_appearance_witness :
  load two_price_csv = Done two_price_db
  /\ map Customer.customer_id (customers two_price_db)
     = drop_duplicates (map Df.CustomerID (dropna two_price_csv)).
Proof.
  assert (H : load two_price_csv = Done two_price_db) by reflexivity.
  split; [exact H|].
  exact (proj1 (load_keeps_first_appearance two_price_csv two_price_db H)).
Defined.

(** X2.  First write wins: after the load, the row stored under a customer
    id, a stock code or an invoice number carries the values of the first
    row of the cleaned frame with that key, and no row is stored under a
    key that the frame does not have. *)
Theorem load_first_write_wins (csv : list Csv.row) (db : database) :
  load csv = Done db ->
  let df := dropna csv in
  (forall k, stored Customer.customer_id k (customers db)
             = option_map customer_of (find (fun r => Df.CustomerID r =?= k) df))
  /\ (forall k, stored Product.stock_code k (products db)
                = option_map product_of (find (fun r => Df.StockCode r =?= k) df))
  /\ (forall k, stored Invoice.invoice_no k (invoices db)
                = option_map invoice_of (find (fun r => Df.InvoiceNo r =?= k) df)).
Proof.
  intros Hload df. unfold load in Hload.
  rewrite load_into_created in Hload. injection Hload as <-.
  split; [|split]; intros k.
  - apply loaded_customer_stored.
  - apply loaded_product_stored.
  - apply loaded_invoice_stored.
Qed.

Lemma load_first_write_wins_witness :
  load two_price_csv = Done two_price_db
  /\ stored Product.stock_code "S1"%string (products two_price_db)
     = Some {| Product.stock_code := "S1"; Product.description := "pen";
               Product.unit_price := float8_of_Z 1 |}.
Proof.
  assert (H : load two_price_csv = Done two_price_db) by reflexivity.
  split; [exact H|].
  exact (proj1 (proj2 (load_first_write_wins two_price_csv two_price_db H))
           "S1"%string).
Defined.


(** X4.  The item loop goes through exactly when the invoice number and
    the stock code of every row are stored; it then appends one item row per
    row, duplicates included, and changes no other table.  On the fresh
    schema it fails at the first row. *)
Theorem item_loop_outcome (rows : list (string * (string * Z))) (db : database) :
  ((exists db', for_each insert_invoice_item rows db = Done db')
   <-> (forall row, In row rows -> item_accepted db row))
  /\ (forall db', for_each insert_invoice_item rows db = Done db' ->
        invoice_items db' = invoice_items db ++ map invoice_item_values rows
        /\ customers db' = customers db
        /\ products db' = products db
        /\ invoices db' = invoices db)
  /\ (forall row, for_each insert_invoice_item (row :: rows) created
                  = ForeignKeyViolation).
Proof.
  split; [apply for_each_insert_invoice_item_outcome|].
  split; [|intros row; reflexivity].
  intros db' E.
  assert (Hacc : forall row, In row rows -> item_accepted db row)
    by (apply for_each_insert_invoice_item_outcome; eauto).
  rewrite (for_each_insert_invoice_item rows db Hacc) in E.
  injection E as <-. simpl. auto.
Qed.

(** X5.  The result has one row per customer, and its customers are those
    under which an invoice number of the cleaned frame is stored: those of
    the first row of some invoice number.  So it has no more rows than the
    frame has customers. *)
Theorem result_customers (current_date : Z) (csv : list Csv.row)
    (out : list RfmSegmentation.row) :
  main current_date csv = Done out ->
  let df := dropna csv in
  NoDup (map RfmSegmentation.customer_id out)
  /\ (forall k, In k (map RfmSegmentation.customer_id out)
                <-> exists r, In r df /\ first_customer df (Df.InvoiceNo r) = k)
  /\ (List.length out
      <= List.length (drop_duplicates (map Df.CustomerID df)))%nat.
Proof.
  intros Hmain df. apply main_done in Hmain. subst out.
  split; [apply rfm_segmentation_one_row_each|].
  split; [intros k; apply loaded_result_member|].
  rewrite <- (length_map RfmSegmentation.customer_id).
  rewrite <- loaded_customer_order.
  apply NoDup_incl_length.
  - apply rfm_segmentation_one_row_each.
  - apply loaded_result_incl.
Qed.

Lemma result_customers_witness :
  main 10 price_change_csv = Done [price_change_row]
  /\ NoDup (map RfmSegmentation.customer_id [price_change_row]).
Proof.
  assert (H : main 10 price_change_csv = Done [price_change_row])
    by reflexivity.
  split; [exact H|].
  exact (proj1 (result_customers 10 price_change_csv [price_change_row] H)).
Defined.

(** X6.  On any content of the tables, the frequency of a row of the
    result is at least 1 and at most the number of invoices stored for the
    customer. *)
Theorem frequency_bounds (current_date : Z) (db : database)
    (rec : RfmSegmentation.row) :
  In rec (rfm_segmentation current_date db) ->
  1 <= RfmSegmentation.frequency rec
    <= Z.of_nat (List.length
                   (invoices_of db (RfmSegmentation.customer_id rec))).
Proof.
  intros Hrec.
  destruct (rfm_segmentation_metrics db current_date rec Hrec)
    as (Hk & _ & Ef & _).
  set (k := RfmSegmentation.customer_id rec) in *.
  set (nos := map (fun j => Invoice.invoice_no (Joined.i j))
                  (group k (from_clause db))) in *.
  rewrite Ef. unfold COUNT_DISTINCT. split.
  - assert (Hne : drop_duplicates nos <> []).
    { apply in_map_iff in Hk. destruct Hk as (j & Ej & Hj).
      intros E.
      assert (Hin : In (Invoice.invoice_no (Joined.i j)) (drop_duplicates nos)).
      { apply drop_duplicates_in. unfold nos.
        apply (in_map (fun j => Invoice.invoice_no (Joined.i j))).
        apply filter_In. split; [assumption|]. now apply keqb_eq. }
      rewrite E in Hin. contradiction. }
    destruct (drop_duplicates nos); [congruence|]. simpl. lia.
  - apply inj_le.
    rewrite <- (length_map Invoice.invoice_no (invoices_of db k)).
    apply NoDup_incl_length; [apply drop_duplicates_nodup|].
    intros no Hno. rewrite drop_duplicates_in in Hno.
    now apply (group_invoices_incl db Invoice.invoice_no k no).
Qed.

Lemma frequency_bounds_witness :
  In one_customer_row (rfm_segmentation 10 one_customer_db)
  /\ 1 <= RfmSegmentation.frequency one_customer_row <= 1.
Proof.
  assert (H : In one_customer_row (rfm_segmentation 10 one_customer_db))
    by (vm_compute; left; reflexivity).
  split; [exact H|].
  exact (frequency_bounds 10 one_customer_db one_customer_row H).
Defined.

(** X7.  After the load, the recency of a row of the result is the number
    of whole days from the latest of the invoice dates stored for the
    customer to the current date: it is the value for one of the customer's
    invoices, none of them is later than that one, and so it is not more
    than the value for any of them. *)
Theorem recency_of_latest_invoice (current_date : Z) (csv : list Csv.row)
    (db : database) (rec : RfmSegmentation.row) :
  load csv = Done db ->
  In rec (rfm_segmentation current_date db) ->
  let mine := invoices_of db (RfmSegmentation.customer_id rec) in
  exists latest,
    In latest mine
    /\ RfmSegmentation.recency rec
       = days_since current_date (Invoice.invoice_date latest)
    /\ forall i, In i mine ->
         Invoice.invoice_date i <= Invoice.invoice_date latest
         /\ RfmSegmentation.recency rec
            <= days_since current_date (Invoice.invoice_date i).
Proof.
  intros Hload Hrec mine.
  unfold load in Hload. rewrite load_into_created in Hload.
  injection Hload as <-.
  set (db := loaded (dropna csv)) in *.
  destruct (rfm_segmentation_metrics db current_date rec Hrec)
    as (Hk & Er & _).
  set (k := RfmSegmentation.customer_id rec) in *.
  set (dates := map (fun j => Invoice.invoice_date (Joined.i j))
                    (group k (from_clause db))) in *.
  assert (Hdates : forall d, In d dates
                             <-> In d (map Invoice.invoice_date mine)).
  { intros d. apply (group_invoices db (loaded_referential_integrity _)
                       (loaded_itemized _) Invoice.invoice_date k d). }
  assert (Hne : dates <> []).
  { unfold dates. intros E. apply map_eq_nil in E.
    exact (group_nonempty db k Hk E). }
  pose proof (MAX_in dates Hne) as Hmax.
  apply Hdates, in_map_iff in Hmax. destruct Hmax as (latest & El & Hl).
  exists latest. split; [exact Hl|]. rewrite Er, <- El.
  split; [reflexivity|]. intros i Hi.
  assert (Hle : Invoice.invoice_date i <= MAX dates).
  { apply MAX_upper. apply Hdates. now apply in_map. }
  rewrite <- El in Hle. split; [exact Hle|].
  now apply days_since_antitone.
Qed.

Lemma recency_of_latest_invoice_witness :
  load two_price_csv = Done two_price_db
  /\ In shared_invoice_row (rfm_segmentation 10 two_price_db)
  /\ exists latest,
       In latest (invoices_of two_price_db 100)
       /\ RfmSegmentation.recency shared_invoice_row
          = days_since 10 (Invoice.invoice_date latest).
Proof.
  assert (H1 : load two_price_csv = Done two_price_db) by reflexivity.
  assert (H2 : In shared_invoice_row (rfm_segmentation 10 two_price_db))
    by (vm_compute; left; reflexivity).
  split; [exact H1|]. split; [exact H2|].
  destruct (recency_of_latest_invoice 10 two_price_csv two_price_db
              shared_invoice_row H1 H2) as (latest & Hl & Er & _).
  exists latest. split; [exact Hl|exact Er].
Defined.

(** X8.  No invoice and no row is counted twice or lost between the
    customers of the result: their frequencies add up to the number of
    distinct invoice numbers of the cleaned frame, and every row of the
    frame is among the rows stored for exactly one of them. *)
Theorem result_totals (current_date : Z) (csv : list Csv.row)
    (out : list RfmSegmentation.row) :
  main current_date csv = Done out ->
  let df := dropna csv in
  total (map RfmSegmentation.frequency out)
  = Z.of_nat (List.length (drop_duplicates (map Df.InvoiceNo df)))
  /\ (forall r, In r df ->
        exists rec,
          In rec out
          /\ In r (rows_stored_for df (RfmSegmentation.customer_id rec))
          /\ (forall rec',
                In rec' out ->
                In r (rows_stored_for df (RfmSegmentation.customer_id rec')) ->
                rec' = rec)).
Proof.
  intros Hmain df. apply main_done in Hmain. subst out.
  split.
  - rewrite loaded_frequency_total.
    rewrite <- (length_map Invoice.invoice_no), loaded_invoice_order.
    reflexivity.
  - intros r Hr.
    assert (Hk : In (first_customer df (Df.InvoiceNo r))
                    (map RfmSegmentation.customer_id
                         (rfm_segmentation current_date (loaded df))))
      by (apply loaded_result_member; eauto).
    apply in_map_iff in Hk. destruct Hk as (rec & Ek & Hrec).
    exists rec. split; [exact Hrec|]. split.
    + apply filter_In. split; [exact Hr|]. apply keqb_eq. now rewrite Ek.
    + intros rec' Hrec' Hin. apply filter_In in Hin. destruct Hin as [_ E].
      apply keqb_eq in E.
      apply (NoDup_map_same RfmSegmentation.customer_id
               (rfm_segmentation current_date (loaded df)));
        auto using rfm_segmentation_one_row_each.
      congruence.
Qed.

Lemma result_totals_witness :
  main 10 price_change_csv = Done [price_change_row]
  /\ total (map RfmSegmentation.frequency [price_change_row])
     = Z.of_nat (List.length (drop_duplicates
                                (map Df.InvoiceNo (dropna price_change_csv)))).
Proof.
  assert (H : main 10 price_change_csv = Done [price_change_row])
    by reflexivity.
  split; [exact H|].
  exact (proj1 (result_totals 10 price_change_csv [price_change_row] H)).
Defined.

(** X9.  The column [rfm_score] of every row of the result is a text of
    three characters, the digits of the three scores in the order r, f, m;
    reading the digits back gives the scores. *)
Theorem rfm_score_round_trip (current_date : Z) (db : database)
    (rec : RfmSegmentation.row) :
  In rec (rfm_segmentation current_date db) ->
  RfmSegmentation.rfm_score rec
  = String (digit (RfmSegmentation.r_score rec))
      (String (digit (RfmSegmentation.f_score rec))
         (String (digit (RfmSegmentation.m_score rec)) EmptyString))
  /\ String.length (RfmSegmentation.rfm_score rec) = 3%nat
  /\ decode_rfm_score (RfmSegmentation.rfm_score rec)
     = Some (RfmSegmentation.r_score rec, RfmSegmentation.f_score rec,
             RfmSegmentation.m_score rec).
Proof.
  intros Hrec. unfold rfm_segmentation in Hrec.
  destruct (result_scores_range _ rec Hrec) as (Hr & Hf & Hm).
  destruct (result_segment _ rec Hrec) as [_ Es].
  rewrite Es, !text_digit by assumption.
  cbn [String.append String.length decode_rfm_score].
  rewrite !score_of_digit_digit by assumption. auto.
Qed.

Lemma rfm_score_round_trip_witness :
  In one_customer_row (rfm_segmentation 10 one_customer_db)
  /\ decode_rfm_score (RfmSegmentation.rfm_score one_customer_row)
     = Some (5, 5, 5).
Proof.
  assert (H : In one_customer_row (rfm_segmentation 10 one_customer_db))
    by (vm_compute; left; reflexivity).
  split; [exact H|].
  exact (proj2 (proj2 (rfm_score_round_trip 10 one_customer_db
                         one_customer_row H))).
Defined.

(** X10.  With fewer than five customers in the result, say N, the buckets
    above N stay empty: every score is at least 6 - N, no score is 1 and no
    customer is Lost; a customer alone in the result is a Champion. *)
Theorem fewer_than_five_customers (current_date : Z) (db : database)
    (rec : RfmSegmentation.row) :
  let out := rfm_segmentation current_date db in
  (List.length out < 5)%nat ->
  In rec out ->
  6 - Z.of_nat (List.length out) <= RfmSegmentation.r_score rec
  /\ 6 - Z.of_nat (List.length out) <= RfmSegmentation.f_score rec
  /\ 6 - Z.of_nat (List.length out) <= RfmSegmentation.m_score rec
  /\ RfmSegmentation.segment rec <> Lost
  /\ (List.length out = 1%nat -> RfmSegmentation.segment rec = Champions).
Proof.
  intros out Hlt Hrec. subst out. unfold rfm_segmentation in *.
  set (rows := rfm current_date db) in *.
  rewrite result_length in *.
  destruct (result_from_ntile rows rec Hrec)
    as (nt & Hnt & _ & _ & _ & _ & Er & Ef & Em).
  destruct (result_scores_range rows rec Hrec) as (Rr & Rf & Rm).
  destruct (result_segment rows rec Hrec) as [Es _].
  destruct (rfm_ntile_partition rows) as (Pr & Pf & Pm).
  assert (Hlen := rfm_ntile_length rows).
  pose proof (quintile_small _ _ Pr nt ltac:(lia) Hnt) as Br.
  pose proof (quintile_small _ _ Pf nt ltac:(lia) Hnt) as Bf.
  pose proof (quintile_small _ _ Pm nt ltac:(lia) Hnt) as Bm.
  rewrite Hlen in Br, Bf, Bm.
  split; [lia|]. split; [lia|]. split; [lia|]. split.
  - destruct (segment_case_first_match (RfmSegmentation.r_score rec)
                (RfmSegmentation.f_score rec) (RfmSegmentation.m_score rec))
      as (_ & _ & _ & HL & _).
    rewrite Es. intros E. apply HL in E.
    destruct E as (_ & _ & _ & E). unfold is_lost in E. lia.
  - intros E1.
    destruct (segment_case_first_match (RfmSegmentation.r_score rec)
                (RfmSegmentation.f_score rec) (RfmSegmentation.m_score rec))
      as (HC & _).
    rewrite Es. apply HC. unfold is_champion. lia.
Qed.

Lemma fewer_than_five_customers_witness :
  In row_of_100 (rfm_segmentation 10 two_customer_db)
  /\ 4 <= RfmSegmentation.r_score row_of_100
  /\ RfmSegmentation.segment row_of_100 <> Lost.
Proof.
  assert (H : In row_of_100 (rfm_segmentation 10 two_customer_db))
    by (vm_compute; left; reflexivity).
  split; [exact H|].
  destruct (fewer_than_five_customers 10 two_customer_db row_of_100
              ltac:(vm_compute; lia) H) as (Hr & _ & _ & Hl & _).
  split; [exact Hr|exact Hl].
Defined.

(** X11.  Of N customers in the result at most the ceiling of N/5 are
    Champions and at most the floor of N/5 are Lost; with five customers or
    more, each of the scores 1 to 5 is given to some customer in each of
    the three dimensions. *)
Theorem segment_sizes (current_date : Z) (db : database) :
  let out := rfm_segmentation current_date db in
  let N := List.length out in
  (rows_of_segment Champions out <= (N + 4) / 5)%nat
  /\ (rows_of_segment Lost out <= N / 5)%nat
  /\ ((5 <= N)%nat -> forall s, 1 <= s <= 5 ->
        (exists rec, In rec out /\ RfmSegmentation.r_score rec = s)
        /\ (exists rec, In rec out /\ RfmSegmentation.f_score rec = s)
        /\ (exists rec, In rec out /\ RfmSegmentation.m_score rec = s)).
Proof.
  intros out N. subst N out. unfold rfm_segmentation.
  set (rows := rfm current_date db).
  rewrite result_length, <- (rfm_ntile_length rows).
  destruct (rfm_ntile_partition rows) as (Pr & Pf & Pm).
  destruct (quintile_first_last _ _ Pr) as [H1 H5].
  assert (Hcount : forall s b,
            (forall r f m, segment_case r f m = s -> r = 6 - b) ->
            (rows_of_segment s
               (select_segmentation (rfm_scores (rfm_ntile rows)))
             <= rows_in_bucket RfmNtile.r_ntile b (rfm_ntile rows))%nat).
  { intros s b Hs. unfold rows_of_segment, select_segmentation, rfm_scores.
    rewrite map_map, filter_map_length, count_occ_filter.
    apply filter_length_le. intros nt _.
    cbn [RfmSegmentation.segment RfmScores.r_score RfmScores.f_score
         RfmScores.m_score].
    intros E. apply Segment_eqb_eq, Hs in E. apply Z.eqb_eq. lia. }
  split; [|split].
  - etransitivity; [apply (Hcount Champions 1)|exact H1].
    intros r f m E.
    apply (proj1 (segment_case_first_match r f m)) in E.
    unfold is_champion in E. lia.
  - rewrite <- H5. apply (Hcount Lost 5).
    intros r f m E.
    destruct (segment_case_first_match r f m) as (_ & _ & _ & HL & _).
    apply HL in E. unfold is_lost in E. lia.
  - intros Hge s Hs.
    destruct (quintile_large _ _ Pr (6 - s) Hge ltac:(lia)) as (n1 & I1 & E1).
    destruct (quintile_large _ _ Pf (6 - s) Hge ltac:(lia)) as (n2 & I2 & E2).
    destruct (quintile_large _ _ Pm (6 - s) Hge ltac:(lia)) as (n3 & I3 & E3).
    destruct (result_of_ntile rows n1 I1) as (r1 & J1 & S1 & _ & _).
    destruct (result_of_ntile rows n2 I2) as (r2 & J2 & _ & S2 & _).
    destruct (result_of_ntile rows n3 I3) as (r3 & J3 & _ & _ & S3).
    split; [exists r1|split; [exists r2|exists r3]];
      (split; [assumption|lia]).
Qed.

(** X12.  Scores follow the metrics: of two customers of the result, the
    one with the strictly smaller recency, the strictly larger frequency or
    the strictly larger monetary value (in the order of doubles) never has
    the lower score in that dimension, however ties are ordered. *)
Theorem scores_follow_metrics (current_date : Z) (db : database)
    (x y : RfmSegmentation.row) :
  In x (rfm_segmentation current_date db) ->
  In y (rfm_segmentation current_date db) ->
  (RfmSegmentation.recency x < RfmSegmentation.recency y ->
   RfmSegmentation.r_score y <= RfmSegmentation.r_score x)
  /\ (RfmSegmentation.frequency y < RfmSegmentation.frequency x ->
      RfmSegmentation.f_score y <= RfmSegmentation.f_score x)
  /\ (float8_lt (RfmSegmentation.monetary y) (RfmSegmentation.monetary x)
      = true ->
      RfmSegmentation.m_score y <= RfmSegmentation.m_score x).
Proof.
  intros Hx Hy. unfold rfm_segmentation in *.
  set (rows := rfm current_date db) in *.
  destruct (result_from_ntile rows x Hx)
    as (nx & Inx & _ & Xr & Xf & Xm & Sxr & Sxf & Sxm).
  destruct (result_from_ntile rows y Hy)
    as (ny & Iny & _ & Yr & Yf & Ym & Syr & Syf & Sym).
  destruct (rfm_ntile_order rows ny nx Iny Inx) as (Or & Of & Om).
  rewrite Xr, Xf, Xm, Yr, Yf, Ym, Sxr, Sxf, Sxm, Syr, Syf, Sym.
  split; [|split]; intros Hlt.
  - destruct (Z_lt_le_dec (RfmNtile.r_ntile ny) (RfmNtile.r_ntile nx))
      as [Hb|Hb]; [apply Or in Hb|]; lia.
  - destruct (Z_lt_le_dec (RfmNtile.f_ntile ny) (RfmNtile.f_ntile nx))
      as [Hb|Hb]; [apply Of in Hb|]; lia.
  - destruct (Z_lt_le_dec (RfmNtile.m_ntile ny) (RfmNtile.m_ntile nx))
      as [Hb|Hb]; [apply Om in Hb|lia].
    unfold float8_lt in Hlt. rewrite Hb in Hlt. discriminate.
Qed.

Lemma scores_follow_metrics_witness :
  In row_of_200 (rfm_segmentation 10 two_customer_db)
  /\ In row_of_100 (rfm_segmentation 10 two_customer_db)
  /\ RfmSegmentation.recency row_of_200 < RfmSegmentation.recency row_of_100
  /\ RfmSegmentation.r_score row_of_100 <= RfmSegmentation.r_score row_of_200.
Proof.
  assert (H2 : In row_of_200 (rfm_segmentation 10 two_customer_db))
    by (vm_compute; right; left; reflexivity).
  assert (H1 : In row_of_100 (rfm_segmentation 10 two_customer_db))
    by (vm_compute; left; reflexivity).
  assert (Hlt : RfmSegmentation.recency row_of_200
                < RfmSegmentation.recency row_of_100) by reflexivity.
  split; [exact H2|]. split; [exact H1|]. split; [exact Hlt|].
  exact (proj1 (scores_follow_metrics 10 two_customer_db row_of_200
                  row_of_100 H2 H1) Hlt).
Defined.

(** X13.  One statement, then a lookup: after a customer, product or
    invoice statement that goes through, the row stored under any key is
    the one that was stored before, or else, under the key of the
    statement, the row of the statement. *)
Theorem insert_then_lookup (db db' : database) :
  (forall row k, insert_customer row db = Done db' ->
     stored Customer.customer_id k (customers db')
     = match stored Customer.customer_id k (customers db) with
       | Some old => Some old
       | None => if fst row =?= k then Some (customer_values row) else None
       end)
  /\ (forall row k, insert_product row db = Done db' ->
        stored Product.stock_code k (products db')
        = match stored Product.stock_code k (products db) with
          | Some old => Some old
          | None => if fst row =?= k then Some (product_values row) else None
          end)
  /\ (forall row k, insert_invoice row db = Done db' ->
        stored Invoice.invoice_no k (invoices db')
        = match stored Invoice.invoice_no k (invoices db) with
          | Some old => Some old
          | None => if fst row =?= k then Some (invoice_values row) else None
          end).
Proof.
  unfold stored. split; [|split]; intros row k E.
  - unfold insert_customer in E. injection E as <-. cbn [customers].
    apply (insert_do_nothing_find Customer.customer_id).
  - unfold insert_product in E. injection E as <-. cbn [products].
    apply (insert_do_nothing_find Product.stock_code).
  - apply insert_invoice_done in E. subst db'. cbn [invoices].
    apply (insert_do_nothing_find Invoice.invoice_no).
Qed.

(** X14.  The script ends with an empty result, and without failure,
    exactly when no record of the file has both a customer identifier and a
    description; an empty file is the first case of that. *)
Theorem empty_result_iff (current_date : Z) (csv : list Csv.row) :
  main current_date csv = Done [] <-> forall r, In r csv -> incomplete r.
Proof.
  rewrite <- dropna_nil_iff, main_loaded. split.
  - intros E. apply create_rfm_segmentation_done in E.
    destruct (dropna csv) as [|r df] eqn:Edf; [reflexivity|exfalso].
    assert (Hin : In (first_customer (r :: df) (Df.InvoiceNo r))
                     (map RfmSegmentation.customer_id
                          (rfm_segmentation current_date (loaded (r :: df))))).
    { apply loaded_result_member. exists r. split; [now left|reflexivity]. }
    rewrite <- E in Hin. contradiction.
  - intros E. rewrite E. reflexivity.
Qed.
